(** * Necoro/form: the struct flattener of reflect.go

    A shallow embedding of [reflect.go] (package [form]): the annotation
    parser [parseTags], the descriptor builder [applyTags], the value
    normaliser [valueOf] and the flattener [fields], together with the part
    of Go's [strings] and [reflect] packages these four functions call. *)

From Stdlib Require Import Ascii String ZArith.
From stdpp Require Import base option list gmap strings.

Local Open Scope string_scope.
Local Open Scope list_scope.

(** ** Outcomes of a Go call

    A call returns, panics, or (for the fuel-indexed flattener only) runs out
    of fuel. *)

Inductive outcome (A : Type) : Type :=
  | Ok (a : A)
  | Panic (msg : string)
  | OutOfFuel.
Arguments Ok {A} a.
Arguments Panic {A} msg.
Arguments OutOfFuel {A}.

Definition obind {A B} (m : outcome A) (k : A -> outcome B) : outcome B :=
  match m with
  | Ok a => k a
  | Panic msg => Panic msg
  | OutOfFuel => OutOfFuel
  end.

Notation "'do' x <- m ; k" := (obind m (fun x => k))
  (at level 10, x name, m at level 100, k at level 200).

(** ** Package strings

    Go strings are byte sequences; [string] (a list of 8-bit [ascii]) is
    exactly that. *)

Module strings.

(** [strings.Split(s, sep)] for a one-byte separator, which is how
    reflect.go calls it ([";"] and ["="]). The result is never empty. *)
Fixpoint Split (s : string) (sep : ascii) : list string :=
  match s with
  | EmptyString => [EmptyString]
  | String c s' =>
      if Ascii.eqb c sep then EmptyString :: Split s' sep
      else match Split s' sep with
           | [] => [String c EmptyString]
           | h :: t => String c h :: t
           end
  end.

(** [strings.IndexByte(s, c) >= 0]: the byte [c] occurs in [s]. *)
Fixpoint contains (s : string) (c : ascii) : bool :=
  match s with
  | EmptyString => false
  | String a s' => Ascii.eqb a c || contains s' c
  end.

(** [strings.Join(elems, sep)]. *)
Fixpoint Join (elems : list string) (sep : string) : string :=
  match elems with
  | [] => ""
  | [x] => x
  | x :: rest => x +:+ sep +:+ Join rest sep
  end.

(** The ASCII white space of [unicode.IsSpace]: tab, LF, VT, FF, CR and
    space. *)
Definition asciiSpace (c : ascii) : bool :=
  let n := nat_of_ascii c in
  ((9 <=? n) && (n <=? 13) || (n =? 32))%nat.

(** The two-byte UTF-8 encodings of white space: U+0085 and U+00A0. *)
Definition space2 (a b : ascii) : bool :=
  ((nat_of_ascii a =? 194)
   && ((nat_of_ascii b =? 133) || (nat_of_ascii b =? 160)))%nat.

(** The three-byte UTF-8 encodings of white space: U+1680, U+2000..U+200A,
    U+2028, U+2029, U+202F, U+205F and U+3000. *)
Definition space3 (a b c : ascii) : bool :=
  let a := nat_of_ascii a in
  let b := nat_of_ascii b in
  let c := nat_of_ascii c in
  (((a =? 225) && (b =? 154) && (c =? 128))
   || ((a =? 226) && (b =? 128)
       && (((128 <=? c) && (c <=? 138)) || (c =? 168) || (c =? 169) || (c =? 175)))
   || ((a =? 226) && (b =? 129) && (c =? 159))
   || ((a =? 227) && (b =? 128) && (c =? 128)))%nat.

(** [strings.TrimLeftFunc(s, unicode.IsSpace)]: drop leading runes that are
    white space. An invalid encoding decodes to U+FFFD, which is not white
    space, so trimming stops there. *)
Fixpoint TrimLeftSpace (s : string) : string :=
  match s with
  | EmptyString => s
  | String a r1 =>
      if asciiSpace a then TrimLeftSpace r1
      else match r1 with
           | EmptyString => s
           | String b r2 =>
               if space2 a b then TrimLeftSpace r2
               else match r2 with
                    | EmptyString => s
                    | String c r3 =>
                        if space3 a b c then TrimLeftSpace r3 else s
                    end
           end
  end.

Fixpoint rev_onto (s acc : string) : string :=
  match s with
  | EmptyString => acc
  | String c s' => rev_onto s' (String c acc)
  end.

Definition rev (s : string) : string := rev_onto s "".

(** Trailing white space, scanned on the reversed string (so the bytes of
    a multi-byte rune come last byte first). *)
Fixpoint TrimLeftSpace_rev (s : string) : string :=
  match s with
  | EmptyString => s
  | String c r1 =>
      if asciiSpace c then TrimLeftSpace_rev r1
      else match r1 with
           | EmptyString => s
           | String b r2 =>
               if space2 b c then TrimLeftSpace_rev r2
               else match r2 with
                    | EmptyString => s
                    | String a r3 =>
                        if space3 a b c then TrimLeftSpace_rev r3 else s
                    end
           end
  end.

(** [strings.TrimRightFunc(s, unicode.IsSpace)]. *)
Definition TrimRightSpace (s : string) : string :=
  rev (TrimLeftSpace_rev (rev s)).

(** [strings.TrimSpace(s)]: leading, then trailing white space. *)
Definition TrimSpace (s : string) : string :=
  TrimRightSpace (TrimLeftSpace s).

End strings.


(** ** Package reflect

    Types, values and the operations of package [reflect] that reflect.go
    calls. Types are finite trees, so a struct type cannot contain itself. *)

Module reflect.

Inductive Kind : Set :=
  | Invalid | Bool | Int | String | Interface | Pointer | Struct.

#[global] Instance Kind_eq_dec : EqDecision Kind.
Proof. solve_decision. Defined.

(** A struct tag, as the [key:"value"] pairs of its conventional format. *)
Definition StructTag : Type := list (string * string).

(** [StructTag.Get]: the value of the first pair with that key, or the
    empty string. *)
Fixpoint Get (tag : StructTag) (key : string) : string :=
  match tag with
  | [] => ""
  | (k, v) :: rest => if decide (k = key) then v else Get rest key
  end.

(** What a struct type declares for one component, besides its type. An
    embedded component is declared without a name; its name is the name of
    its type. [decl_pkgpath] is empty for an exported name. *)
Record decl : Type := Decl {
  decl_name : string;
  decl_pkgpath : string;
  decl_tag : StructTag;
  decl_anonymous : bool
}.

#[local] Unset Elimination Schemes.

Inductive rtype : Type :=
  | TBool
  | TInt
  | TString
  | TInterface
  | TPointer (elem : rtype)
  | TStruct (fs : list (decl * rtype)).

(** A Go value with its dynamic type. [VNil elem] is the nil pointer of
    type [*elem], [VPtr x] a pointer to a variable holding [x],
    [VInterface d] a variable of type [interface{}] holding [d]. *)
Inductive value : Type :=
  | VBool (b : bool)
  | VInt (i : Z)
  | VString (s : string)
  | VInterface (dyn : option value)
  | VNil (elem : rtype)
  | VPtr (target : value)
  | VStruct (fs : list (decl * value)).

#[local] Set Elimination Schemes.

(** An [interface{}]: nil, or a value (which is then not itself an
    interface). *)
Definition any : Type := option value.

(** A [reflect.Value]: [None] is the zero Value, of kind [Invalid]. *)
Definition Value : Type := option value.

Fixpoint TypeOf (x : value) : rtype :=
  match x with
  | VBool _ => TBool
  | VInt _ => TInt
  | VString _ => TString
  | VInterface _ => TInterface
  | VNil elem => TPointer elem
  | VPtr target => TPointer (TypeOf target)
  | VStruct fs => TStruct (map (fun p => (fst p, TypeOf (snd p))) fs)
  end.

(** [Type.Kind]. *)
Definition Type_Kind (t : rtype) : Kind :=
  match t with
  | TBool => Bool
  | TInt => Int
  | TString => String
  | TInterface => Interface
  | TPointer _ => Pointer
  | TStruct _ => Struct
  end.

(** [Value.Kind]. *)
Definition Value_Kind (v : Value) : Kind :=
  match v with
  | None => Invalid
  | Some x => Type_Kind (TypeOf x)
  end.

(** [reflect.Zero]. *)
Fixpoint Zero (t : rtype) : value :=
  match t with
  | TBool => VBool false
  | TInt => VInt 0
  | TString => VString ""
  | TInterface => VInterface None
  | TPointer elem => VNil elem
  | TStruct fs => VStruct (map (fun p => (fst p, Zero (snd p))) fs)
  end.

(** [Value.IsNil], which panics on a kind that has no nil. *)
Definition IsNil (x : value) : outcome bool :=
  match x with
  | VNil _ => Ok true
  | VPtr _ => Ok false
  | VInterface None => Ok true
  | VInterface (Some _) => Ok false
  | _ => Panic "reflect: call of reflect.Value.IsNil on a Value without nil"
  end.

(** [reflect.Indirect]: [Elem] of a pointer, which is the zero Value for a
    nil one; anything else itself. *)
Definition Indirect (x : value) : Value :=
  match x with
  | VNil _ => None
  | VPtr target => Some target
  | _ => Some x
  end.

(** [Value.Interface]: the value as an [interface{}]; for a Value of kind
    Interface that is the value it holds. (It panics on a Value read through
    an unexported field; [fields] reads exported fields only, and an embedded
    unexported struct does not mark the fields promoted from it, so that
    mark is left out of [value].) *)
Definition Value_Interface (x : value) : any :=
  match x with
  | VInterface dyn => dyn
  | _ => Some x
  end.

(** [Value.Field]. *)
Definition Field (x : value) (i : nat) : outcome value :=
  match x with
  | VStruct fs =>
      match fs !! i with
      | Some (_, y) => Ok y
      | None => Panic "reflect: Field index out of range"
      end
  | _ => Panic "reflect: call of reflect.Value.Field on a non-struct Value"
  end.

(** The loop of [Value.FieldByIndex]: after the first step a pointer to a
    struct is followed, and a nil one panics. *)
Fixpoint FieldByIndex_from (first : bool) (x : value) (index : list nat)
  : outcome value :=
  match index with
  | [] => Ok x
  | i :: rest =>
      do y <- (if first then Ok x
               else match x with
                    | VNil (TStruct _) =>
                        Panic "reflect: indirection through nil pointer to embedded struct"
                    | VPtr (VStruct _ as target) => Ok target
                    | _ => Ok x
                    end);
      do f <- Field y i;
      FieldByIndex_from false f rest
  end.

(** [Value.FieldByIndex]. *)
Definition FieldByIndex (x : value) (index : list nat) : outcome value :=
  match index with
  | [i] => Field x i
  | _ =>
      match x with
      | VStruct _ => FieldByIndex_from true x index
      | _ => Panic "reflect: call of reflect.Value.FieldByIndex on a non-struct Value"
      end
  end.

(** [reflect.StructField], without [Offset]. *)
Record StructField : Type := mkStructField {
  Name : string;
  PkgPath : string;
  Type_ : rtype;
  Tag : StructTag;
  Index : list nat;
  Anonymous : bool
}.

(** [StructField.IsExported]. *)
Definition IsExported (f : StructField) : bool :=
  bool_decide (PkgPath f = "").

(** [Type.Field(i)] of a struct type, for the declaration at [i]. *)
Definition field_of (d : decl) (t : rtype) (index : list nat) : StructField :=
  {| Name := decl_name d; PkgPath := decl_pkgpath d; Type_ := t;
     Tag := decl_tag d; Index := index; Anonymous := decl_anonymous d |}.

(** The state of [visibleFieldsWalker]; [visiting] is left out: it only
    stops the walk inside a type that contains itself. *)
Record walker : Type := mkWalker {
  byName : gmap string nat;
  w_fields : list StructField
}.

Definition hide (f : StructField) : StructField :=
  {| Name := ""; PkgPath := PkgPath f; Type_ := Type_ f; Tag := Tag f;
     Index := Index f; Anonymous := Anonymous f |}.

(** One iteration of [walk], up to the [if add] block: a field hides a
    deeper one of the same name, and two of the same name at one depth
    hide each other. [byName] holds positions of [w_fields], so the lookup
    of [oldIndex] finds an entry. *)
Definition visit (f : StructField) (w : walker) : walker :=
  let append w :=
    {| byName := <[Name f := length (w_fields w)]> (byName w);
       w_fields := (w_fields w ++ [f])%list |} in
  match byName w !! Name f with
  | None => append w
  | Some oldIndex =>
      match w_fields w !! oldIndex with
      | None => w
      | Some old =>
          let hidden :=
            {| byName := byName w;
               w_fields := <[oldIndex := hide old]> (w_fields w) |} in
          if decide (length (Index f) = length (Index old)) then hidden
          else if decide (length (Index f) < length (Index old)) then append hidden
          else w
      end
  end.

(** [visibleFieldsWalker.walk]; [index] is [w.index]. *)
Fixpoint walk (t : rtype) (index : list nat) (w : walker) {struct t} : walker :=
  match t with
  | TStruct fs =>
      (fix loop (fs : list (decl * rtype)) (i : nat) (w : walker) : walker :=
         match fs with
         | [] => w
         | (d, ft) :: rest =>
             let index := (index ++ [i])%list in
             let w := visit (field_of d ft index) w in
             let w :=
               if decl_anonymous d then
                 match ft with
                 | TPointer (TStruct _ as t') | (TStruct _ as t') => walk t' index w
                 | _ => w
                 end
               else w in
             loop rest (S i) w
         end) fs 0 w
  | _ => w
  end.

(** [reflect.VisibleFields]. *)
Definition VisibleFields (t : rtype) : outcome (list StructField) :=
  match t with
  | TStruct _ =>
      let w := walk t [] {| byName := ∅; w_fields := [] |} in
      Ok (filter (fun f => Name f ≠ "") (w_fields w))
  | _ => Panic "reflect.VisibleFields of non-struct type"
  end.

End reflect.


(** ** Package form: reflect.go *)

(** [type field struct]; [Footer] is a [template.HTML], a string type. *)
Record field : Type := mkField {
  Name : string;
  Label : string;
  Placeholder : string;
  Type_ : string;
  ID : string;
  ReadOnly : bool;
  Value : reflect.any;
  Footer : string;
  Class : string
}.

Definition set_Name (v : string) (f : field) : field :=
  mkField v (Label f) (Placeholder f) (Type_ f) (ID f) (ReadOnly f) (Value f) (Footer f) (Class f).
Definition set_Label (v : string) (f : field) : field :=
  mkField (Name f) v (Placeholder f) (Type_ f) (ID f) (ReadOnly f) (Value f) (Footer f) (Class f).
Definition set_Placeholder (v : string) (f : field) : field :=
  mkField (Name f) (Label f) v (Type_ f) (ID f) (ReadOnly f) (Value f) (Footer f) (Class f).
Definition set_Type (v : string) (f : field) : field :=
  mkField (Name f) (Label f) (Placeholder f) v (ID f) (ReadOnly f) (Value f) (Footer f) (Class f).
Definition set_ID (v : string) (f : field) : field :=
  mkField (Name f) (Label f) (Placeholder f) (Type_ f) v (ReadOnly f) (Value f) (Footer f) (Class f).
Definition set_ReadOnly (v : bool) (f : field) : field :=
  mkField (Name f) (Label f) (Placeholder f) (Type_ f) (ID f) v (Value f) (Footer f) (Class f).
Definition set_Footer (v : string) (f : field) : field :=
  mkField (Name f) (Label f) (Placeholder f) (Type_ f) (ID f) (ReadOnly f) (Value f) v (Class f).
Definition set_Class (v : string) (f : field) : field :=
  mkField (Name f) (Label f) (Placeholder f) (Type_ f) (ID f) (ReadOnly f) (Value f) (Footer f) v.

(** [if v, ok := tags[key]; ok { f.X = ... v ... }]. *)
Definition with_tag (tags : gmap string string) (key : string)
    (set : string -> field -> field) (f : field) : field :=
  match tags !! key with
  | Some v => set v f
  | None => f
  end.

(** [func (f *field) applyTags(tags map[string]string)], returning the
    updated descriptor. *)
Definition applyTags (f : field) (tags : gmap string string) : field :=
  let f := with_tag tags "name" set_Name f in
  let f := with_tag tags "label" (fun v f => set_Placeholder v (set_Label v f)) f in
  let f := with_tag tags "placeholder" set_Placeholder f in
  let f := with_tag tags "type" set_Type f in
  let f := with_tag tags "id" set_ID f in
  let f := with_tag tags "footer" set_Footer f in
  let f := with_tag tags "class" set_Class f in
  let f := with_tag tags "readonly" (fun v f => set_ReadOnly (bool_decide (v = "true")) f) f in
  f.

(** The loop of [parseTags] over [split], with [ret] the map so far. The
    nil map of [return nil, true] is [None]. *)
Fixpoint parseTags_loop (split : list string) (ret : gmap string string)
  : option (gmap string string) * bool :=
  match split with
  | [] => (Some ret, false)
  | tag :: rest =>
      match strings.Split tag "=" with
      | k :: v :: _ =>
          parseTags_loop rest (<[strings.TrimSpace k := strings.TrimSpace v]> ret)
      | kv =>
          if decide (nth 0 kv "" = "-") then (None, true)
          else parseTags_loop rest ret
      end
  end.

(** [func parseTags(tags string) (map[string]string, bool)]. *)
Definition parseTags (tags : string) : option (gmap string string) * bool :=
  let tags := strings.TrimSpace tags in
  if decide (String.length tags = 0) then (Some ∅, false)
  else parseTags_loop (strings.Split tags ";") ∅.

(** The loop of [valueOf]: it follows pointers and interfaces for as long
    as there are any; [Elem] of a nil one is the zero Value, at which the
    loop stops. *)
Fixpoint valueOf_loop (rv : reflect.value) : reflect.Value :=
  match rv with
  | reflect.VPtr target => valueOf_loop target
  | reflect.VNil _ => None
  | reflect.VInterface (Some x) => valueOf_loop x
  | reflect.VInterface None => None
  | _ => Some rv
  end.

(** [func valueOf(v interface{}) reflect.Value]. [reflect.ValueOf(nil)] is
    the zero Value, on which [rv.Type()] panics. *)
Definition valueOf (v : reflect.any) : outcome reflect.Value :=
  match v with
  | None => Panic "reflect: call of reflect.Value.Type on zero Value"
  | Some rv =>
      do rv <- (match reflect.TypeOf rv with
                | reflect.TPointer elem =>
                    do nil <- reflect.IsNil rv;
                    if (nil : bool) then Ok (reflect.Zero elem) else Ok rv
                | _ => Ok rv
                end);
      Ok (valueOf_loop rv)
  end.

(** Lines 46-50 of [fields]: the component's Value, a nil pointer replaced
    by the zero value of what it points to. *)
Definition component (rv : reflect.value) (tf : reflect.StructField)
  : outcome reflect.value :=
  do rf <- reflect.FieldByIndex rv (reflect.Index tf);
  match reflect.Type_ tf with
  | reflect.TPointer elem =>
      do nil <- reflect.IsNil rf;
      if (nil : bool) then Ok (reflect.Zero elem) else Ok rf
  | _ => Ok rf
  end.

(** Lines 73-80 of [fields]: the descriptor with its default values. *)
Definition default_field (names : list string) (tf : reflect.StructField)
    (rf : reflect.value) : field :=
  let name := names ++ [reflect.Name tf] in
  {| Name := strings.Join name ".";
     Label := reflect.Name tf;
     Placeholder := reflect.Name tf;
     Type_ := "text";
     ID := "";
     ReadOnly := false;
     Value := reflect.Value_Interface rf;
     Footer := "";
     Class := "" |}.

(** Lines 69-82 of [fields]: what a leaf component appends to [ret]. A nil
    map reads as an empty one. *)
Definition leaf (names : list string) (tf : reflect.StructField)
    (rf : reflect.value) : list field :=
  match parseTags (reflect.Get (reflect.Tag tf) "form") with
  | (_, true) => []
  | (tags, false) => [applyTags (default_field names tf rf) (default ∅ tags)]
  end.

(** The body of the loop of [fields] for one visible field [tf]: what it
    appends to [ret]. [rec] is [fields] itself. *)
Definition fields_step (rec : reflect.any -> list string -> outcome (list field))
    (rv : reflect.value) (names : list string) (tf : reflect.StructField)
  : outcome (list field) :=
  if negb (reflect.IsExported tf) then Ok []
  else
    do rf <- component rv tf;
    if decide (reflect.Value_Kind (reflect.Indirect rf) = reflect.Struct) then
      if negb (reflect.Anonymous tf)
      then rec (reflect.Value_Interface rf) (names ++ [reflect.Name tf])%list
      else Ok []
    else Ok (leaf names tf rf).

(** The loop of [fields] over [vFields], appending to [ret]. *)
Fixpoint fields_loop (rec : reflect.any -> list string -> outcome (list field))
    (rv : reflect.value) (names : list string)
    (vFields : list reflect.StructField) (ret : list field)
  : outcome (list field) :=
  match vFields with
  | [] => Ok ret
  | tf :: rest =>
      do fs <- fields_step rec rv names tf;
      fields_loop rec rv names rest (ret ++ fs)%list
  end.

(** [fields] up to the loop, with [rec] for the recursive call. *)
Definition fields_body (rec : reflect.any -> list string -> outcome (list field))
    (v : reflect.any) (names : list string) : outcome (list field) :=
  do rv <- valueOf v;
  match rv with
  | Some (reflect.VStruct _ as rv) =>
      let t := reflect.TypeOf rv in
      do vFields <- reflect.VisibleFields t;
      fields_loop rec rv names vFields []
  | _ => Panic "invalid value; only structs are supported"
  end.

(** [func fields(v interface{}, names ...string) []field], with the depth of
    the recursion bounded by [fuel]. *)
Fixpoint fields_fuel (fuel : nat) (v : reflect.any) (names : list string)
  : outcome (list field) :=
  match fuel with
  | 0 => OutOfFuel
  | S fuel => fields_body (fields_fuel fuel) v names
  end.


(** The nesting depth of a type: it bounds the depth of the recursion of
    [fields], which only ever descends into a component's type. *)
Fixpoint depth (t : reflect.rtype) : nat :=
  match t with
  | reflect.TPointer elem => S (depth elem)
  | reflect.TStruct fs => S (foldr Nat.max 0 (map (fun p => depth (snd p)) fs))
  | _ => 0
  end.

Definition fuel_for (v : reflect.any) : nat :=
  match valueOf v with
  | Ok (Some rv) => S (depth (reflect.TypeOf rv))
  | _ => 1
  end.

(** [fields], with fuel for the whole recursion ([fields_terminates]). The
    fuel is the nesting depth of the type, which is finite for the types of
    [reflect.rtype]; on a struct type that contains itself, which has no
    counterpart there, the recursion of the Go function does not end. *)
Definition fields (v : reflect.any) (names : list string) : outcome (list field) :=
  fields_fuel (fuel_for v) v names.

(** ** Declaration order

    The components of a struct type in the order of their declaration, each
    embedded struct (or pointer to struct) followed at once by its own
    components: the candidates [reflect.VisibleFields] chooses from. *)

Fixpoint preorder (t : reflect.rtype) (index : list nat) : list reflect.StructField :=
  match t with
  | reflect.TStruct fs =>
      (fix loop (fs : list (reflect.decl * reflect.rtype)) (i : nat) :=
         match fs with
         | [] => []
         | (d, ft) :: rest =>
             let index := (index ++ [i])%list in
             (reflect.field_of d ft index
              :: (if reflect.decl_anonymous d then
                    match ft with
                    | reflect.TPointer (reflect.TStruct _ as t')
                    | (reflect.TStruct _ as t') => preorder t' index
                    | _ => []
                    end
                  else [])
              ++ loop rest (S i))%list
         end) fs 0
  | _ => []
  end.


(** The struct an embedded component of type [ft] stands for: [ft] itself
    or, for a pointer, what it points to. *)
Definition struct_of (ft : reflect.rtype) : option (list (reflect.decl * reflect.rtype)) :=
  match ft with
  | reflect.TPointer (reflect.TStruct gs) | reflect.TStruct gs => Some gs
  | _ => None
  end.

(** [t] declares, at the index path [idx] through embedded structs, a
    component [d] of type [ft]. *)
Inductive typed_at : reflect.rtype -> list nat -> reflect.decl -> reflect.rtype -> Prop :=
  | typed_here fs i d ft :
      fs !! i = Some (d, ft) ->
      typed_at (reflect.TStruct fs) [i] d ft
  | typed_deeper fs i d ft gs idx d' ft' :
      fs !! i = Some (d, ft) ->
      reflect.decl_anonymous d = true ->
      struct_of ft = Some gs ->
      typed_at (reflect.TStruct gs) idx d' ft' ->
      typed_at (reflect.TStruct fs) (i :: idx) d' ft'.

(** ** Splitting on the first separator only

    What the specification says of a segment: it is cut at its first ["="],
    into what comes before and all that comes after. *)

Fixpoint cut_first (s : string) (sep : ascii) : option (string * string) :=
  match s with
  | EmptyString => None
  | String c s' =>
      if Ascii.eqb c sep then Some (EmptyString, s')
      else match cut_first s' sep with
           | Some (k, v) => Some (String c k, v)
           | None => None
           end
  end.

(** ** Inputs of the tests of reflect_test.go *)

Definition form_tag (tag : string) : reflect.StructTag := [("form", tag)].

(** An exported, named component. *)
Definition exported (name tag : string) : reflect.decl :=
  reflect.Decl name "" (if decide (tag = "") then [] else form_tag tag) false.

(** [struct { Name string `form:"options=readonly,required"` }{"Michael Scott"}] *)
Definition multiple_options : reflect.value :=
  reflect.VStruct
    [(exported "Name" "options=readonly,required", reflect.VString "Michael Scott")].

(** [struct { Name string; Address address }] of the test "nested with
    values", where [type address struct { Street1 string }]. *)
Definition nested_with_values : reflect.value :=
  reflect.VStruct
    [(exported "Name" "", reflect.VString "Michael Scott");
     (exported "Address" "",
      reflect.VStruct [(exported "Street1" "", reflect.VString "123 Test St")])].

(** [struct { Name string; Address }{}] of the test "nested anonymous",
    where [type Address struct { City string }]. *)
Definition nested_anonymous : reflect.value :=
  reflect.VStruct
    [(exported "Name" "", reflect.VString "");
     (reflect.Decl "Address" "" [] true,
      reflect.VStruct [(exported "City" "", reflect.VString "")])].

(** [type Address struct { City string }]. *)
Definition t_Address : reflect.rtype :=
  reflect.TStruct [(exported "City" "", reflect.TString)].

(** [struct { *Address }{}]: the embedded pointer is nil. *)
Definition embedded_nil : reflect.value :=
  reflect.VStruct [(reflect.Decl "Address" "" [] true, reflect.VNil t_Address)].

(** [struct { *Address }{&Address{}}]. *)
Definition embedded_pointer : reflect.value :=
  reflect.VStruct
    [(reflect.Decl "Address" "" [] true,
      reflect.VPtr (reflect.VStruct [(exported "City" "", reflect.VString "")]))].


(** [struct { Inner }], where
    [type Inner struct { Address address `form:"-"` }] and
    [type address struct { Street1 string }]: the named record [Address],
    marked to be ignored, is promoted from the embedded [Inner]. *)
Definition promoted_ignored : reflect.value :=
  reflect.VStruct
    [(reflect.Decl "Inner" "" [] true,
      reflect.VStruct
        [(exported "Address" "-",
          reflect.VStruct [(exported "Street1" "", reflect.VString "123 Test St")])])].

(** The same without the annotation of [Address]. *)
Definition promoted_plain : reflect.value :=
  reflect.VStruct
    [(reflect.Decl "Inner" "" [] true,
      reflect.VStruct
        [(exported "Address" "",
          reflect.VStruct [(exported "Street1" "", reflect.VString "123 Test St")])])].

Definition text_field (name : string) (value : reflect.any) : field :=
  {| Name := name; Label := name; Placeholder := name; Type_ := "text";
     ID := ""; ReadOnly := false; Value := value; Footer := ""; Class := "" |}.

Definition nested_with_values_out : list field :=
  [ text_field "Name" (Some (reflect.VString "Michael Scott"));
    {| Name := "Address.Street1"; Label := "Street1"; Placeholder := "Street1";
       Type_ := "text"; ID := ""; ReadOnly := false;
       Value := Some (reflect.VString "123 Test St"); Footer := ""; Class := "" |} ].

(** A component of type [string]. *)
Definition str (name tag value : string) : reflect.decl * reflect.value :=
  (exported name tag, reflect.VString value).

(** [type address struct { Street1 string }]. *)
Definition t_address : reflect.rtype :=
  reflect.TStruct [(exported "Street1" "", reflect.TString)].

(** ** Paths

    [leaf_path v path tf rf]: from the record [v] down to the leaf component
    [tf], whose value is [rf], [path] lists the declared names of the named
    record components passed through, and then the name of [tf]. The
    components of an embedded record count as components of the record that
    embeds it. *)
Inductive leaf_path : reflect.any -> list string -> reflect.StructField -> reflect.value -> Prop :=
  | leaf_path_here v rv vFields tf rf :
      valueOf v = Ok (Some rv) ->
      reflect.VisibleFields (reflect.TypeOf rv) = Ok vFields ->
      tf ∈ vFields ->
      reflect.IsExported tf = true ->
      component rv tf = Ok rf ->
      reflect.Value_Kind (reflect.Indirect rf) <> reflect.Struct ->
      leaf_path v [reflect.Name tf] tf rf
  | leaf_path_nested v rv vFields tf rf path tf' rf' :
      valueOf v = Ok (Some rv) ->
      reflect.VisibleFields (reflect.TypeOf rv) = Ok vFields ->
      tf ∈ vFields ->
      reflect.IsExported tf = true ->
      component rv tf = Ok rf ->
      reflect.Value_Kind (reflect.Indirect rf) = reflect.Struct ->
      reflect.Anonymous tf = false ->
      leaf_path (reflect.Value_Interface rf) path tf' rf' ->
      leaf_path v (reflect.Name tf :: path) tf' rf'.

(** The message of the panic of [FieldByIndex] on its way through a nil
    embedded pointer. *)
Definition nil_embedded : string :=
  "reflect: indirection through nil pointer to embedded struct".

(** ** Records and the blocks of their components *)

(** A value is record-shaped when [valueOf] yields a struct, [rv]. *)
Definition record (v : reflect.any) (rv : reflect.value) : Prop :=
  valueOf v = Ok (Some rv) /\ reflect.Value_Kind (Some rv) = reflect.Struct.

(** [block rv names tf b]: the descriptors [b] that the visible field [tf]
    of the record [rv] contributes, under the ancestor names [names]. *)
Inductive block (rv : reflect.value) (names : list string) (tf : reflect.StructField)
  : list field -> Prop :=
  | block_unexported :
      reflect.IsExported tf = false ->
      block rv names tf []
  | block_embedded rf :
      reflect.IsExported tf = true ->
      component rv tf = Ok rf ->
      reflect.Value_Kind (reflect.Indirect rf) = reflect.Struct ->
      reflect.Anonymous tf = true ->
      block rv names tf []
  | block_nested rf b :
      reflect.IsExported tf = true ->
      component rv tf = Ok rf ->
      reflect.Value_Kind (reflect.Indirect rf) = reflect.Struct ->
      reflect.Anonymous tf = false ->
      fields (reflect.Value_Interface rf) (names ++ [reflect.Name tf]) = Ok b ->
      block rv names tf b
  | block_leaf rf :
      reflect.IsExported tf = true ->
      component rv tf = Ok rf ->
      reflect.Value_Kind (reflect.Indirect rf) <> reflect.Struct ->
      block rv names tf (leaf names tf rf).

(** ** Descriptors that agree on all but Value *)

Definition same_but_Value (a b : field) : Prop :=
  Name a = Name b /\ Label a = Label b /\ Placeholder a = Placeholder b
  /\ Type_ a = Type_ b /\ ID a = ID b /\ Class a = Class b
  /\ ReadOnly a = ReadOnly b /\ Footer a = Footer b.

(** ** Records that differ in the annotations of record components

    [tags_differ x x']: the records [x] and [x'] are the same but for the
    struct tags of components that are themselves records (a struct, a
    pointer to a struct or a nil pointer to one), at any depth, named or
    embedded. Every other component has the same declaration and the same
    value in both. *)

Section record_tags.
Import reflect.

(** Two components of the same name, package path and embedding: the same
    component, or two whose contents are related by [R], whatever their
    tags. *)
Definition comp_rel {A} (R : A -> A -> Prop) (p p' : decl * A) : Prop :=
  decl_name p.1 = decl_name p'.1
  /\ decl_pkgpath p.1 = decl_pkgpath p'.1
  /\ decl_anonymous p.1 = decl_anonymous p'.1
  /\ (p = p' \/ R p.2 p'.2).

#[local] Unset Elimination Schemes.

Inductive tags_differ_t : rtype -> rtype -> Prop :=
  | tags_differ_TStruct fs fs' :
      Forall2 (comp_rel tags_differ_t) fs fs' ->
      tags_differ_t (TStruct fs) (TStruct fs')
  | tags_differ_TPointer fs fs' :
      Forall2 (comp_rel tags_differ_t) fs fs' ->
      tags_differ_t (TPointer (TStruct fs)) (TPointer (TStruct fs')).

Inductive tags_differ : value -> value -> Prop :=
  | tags_differ_VStruct vs vs' :
      Forall2 (comp_rel tags_differ) vs vs' ->
      tags_differ (VStruct vs) (VStruct vs')
  | tags_differ_VPtr vs vs' :
      Forall2 (comp_rel tags_differ) vs vs' ->
      tags_differ (VPtr (VStruct vs)) (VPtr (VStruct vs'))
  | tags_differ_VNil fs fs' :
      Forall2 (comp_rel tags_differ_t) fs fs' ->
      tags_differ (VNil (TStruct fs)) (VNil (TStruct fs')).

#[local] Set Elimination Schemes.

(** The same value, or two records that differ in such tags. *)
Definition val_rel (x x' : value) : Prop := x = x' \/ tags_differ x x'.

Definition any_rel (v v' : any) : Prop :=
  v = v' \/ exists x x', v = Some x /\ v' = Some x' /\ tags_differ x x'.

(** What [component] returns for two such records: the same value, or two
    records that differ in such tags. *)
Definition component_rel (rf rf' : value) : Prop :=
  rf = rf' \/ (tags_differ rf rf' /\ Value_Kind (Indirect rf) = Struct).

(** The fields [VisibleFields] lists for two such types. *)
Definition field_rel (f f' : StructField) : Prop :=
  Name f = Name f' /\ PkgPath f = PkgPath f' /\ Index f = Index f'
  /\ Anonymous f = Anonymous f'
  /\ (f = f' \/ tags_differ_t (Type_ f) (Type_ f')).

Definition walker_rel (w w' : walker) : Prop :=
  byName w = byName w' /\ Forall2 field_rel (w_fields w) (w_fields w').

End record_tags.

(** ** The loops of [walk] and [preorder] on their own *)

Section loop_definitions.
Import reflect.

Definition walk_embedded (d : decl) (ft : rtype) (index : list nat) (w : walker) : walker :=
  if decl_anonymous d then
    match struct_of ft with
    | Some gs => walk (TStruct gs) index w
    | None => w
    end
  else w.

Definition walk_loop (index : list nat) : list (decl * rtype) -> nat -> walker -> walker :=
  fix loop fs i w :=
    match fs with
    | [] => w
    | (d, ft) :: rest =>
        loop rest (S i)
          (walk_embedded d ft (index ++ [i])%list
             (visit (field_of d ft (index ++ [i])%list) w))
    end.

Definition preorder_embedded (d : decl) (ft : rtype) (index : list nat) : list StructField :=
  if decl_anonymous d then
    match struct_of ft with
    | Some gs => preorder (TStruct gs) index
    | None => []
    end
  else [].

Definition preorder_loop (index : list nat) : list (decl * rtype) -> nat -> list StructField :=
  fix loop fs i :=
    match fs with
    | [] => []
    | (d, ft) :: rest =>
        (field_of d ft (index ++ [i])
         :: preorder_embedded d ft (index ++ [i]) ++ loop rest (S i))%list
    end.

End loop_definitions.

(** ** Auxiliary notions *)

Section auxiliary.
Import reflect.

(** An entry of the walker stands for a candidate, named or hidden. *)
Definition stands_for (f c : StructField) : Prop := f = c \/ f = hide c.

Definition chosen_from (l cands : list StructField) : Prop :=
  exists l', l' `sublist_of` cands /\ Forall2 stands_for l l'.

(** A value of type [t], or, past the first step, a pointer to one. *)
Definition reaches (first : bool) (x : value) (fs : list (decl * rtype)) : Prop :=
  TypeOf x = TStruct fs \/ (first = false /\ TypeOf x = TPointer (TStruct fs)).

(** [rec2] returns whatever [rec1] returns, where [rec1] has fuel left. *)
Definition extends (rec1 rec2 : any -> list string -> outcome (list field)) : Prop :=
  forall v names, rec1 v names <> OutOfFuel -> rec2 v names = rec1 v names.

End auxiliary.

(** ** Notions for further properties *)

(** The pair [(k, v)] that the loop of [parseTags] stores for [tag], if it
    stores one: [len(kv) >= 2]. *)
Definition segment_pair (tag : string) : option (string * string) :=
  match strings.Split tag "=" with
  | k :: v :: _ => Some (strings.TrimSpace k, strings.TrimSpace v)
  | _ => None
  end.

(** [s] begins with a white space rune. *)
Definition leading_space (s : string) : bool :=
  match s with
  | String a (String b (String c _)) =>
      strings.asciiSpace a || strings.space2 a b || strings.space3 a b c
  | String a (String b EmptyString) => strings.asciiSpace a || strings.space2 a b
  | String a EmptyString => strings.asciiSpace a
  | EmptyString => false
  end.

(** The reversed [s] ends with a white space rune. *)
Definition leading_space_rev (s : string) : bool :=
  match s with
  | String c (String b (String a _)) =>
      strings.asciiSpace c || strings.space2 b c || strings.space3 a b c
  | String c (String b EmptyString) => strings.asciiSpace c || strings.space2 b c
  | String c EmptyString => strings.asciiSpace c
  | EmptyString => false
  end.

(** The keys [applyTags] reads. *)
Definition recognized_keys : list string :=
  ["name"; "label"; "placeholder"; "type"; "id"; "footer"; "class"; "readonly"].

(** No struct type inside [t] embeds a pointer to a struct. *)
Fixpoint no_embedded_pointer (t : reflect.rtype) : bool :=
  match t with
  | reflect.TPointer elem => no_embedded_pointer elem
  | reflect.TStruct fs =>
      forallb (fun p =>
                 negb (reflect.decl_anonymous (fst p)
                       && match snd p with
                          | reflect.TPointer (reflect.TStruct _) => true
                          | _ => false
                          end)
                 && no_embedded_pointer (snd p)) fs
  | _ => true
  end.

Definition same_but_Name (a b : field) : Prop :=
  Label a = Label b /\ Placeholder a = Placeholder b
  /\ Type_ a = Type_ b /\ ID a = ID b /\ Class a = Class b
  /\ ReadOnly a = ReadOnly b /\ Footer a = Footer b /\ Value a = Value b.

(** Two outcomes of one kind: results related by [R], or the same panic. *)
Definition same_outcome {A} (R : A -> A -> Prop) (o o' : outcome A) : Prop :=
  match o, o' with
  | Ok a, Ok a' => R a a'
  | Panic msg, Panic msg' => msg = msg'
  | OutOfFuel, OutOfFuel => True
  | _, _ => False
  end.

(** * Properties *)

(** ** The tests of reflect_test.go *)

Section tests.
Import reflect.

Example simple_and_empty :
  fields (Some (VStruct [str "Name" "" ""])) []
  = Ok [text_field "Name" (Some (VString ""))].
Proof. by vm_compute. Qed.

Example simple_with_ignored :
  fields (Some (VStruct [str "Name" "" ""; str "Ignored" "-" "secret info"])) []
  = Ok [text_field "Name" (Some (VString ""))].
Proof. by vm_compute. Qed.

Example pointer_to_struct :
  fields (Some (VPtr (VStruct [str "Street1" "" ""]))) []
  = Ok [text_field "Street1" (Some (VString ""))].
Proof. by vm_compute. Qed.

Example nil_pointer_with_type :
  fields (Some (VNil t_address)) []
  = Ok [text_field "Street1" (Some (VString ""))].
Proof. by vm_compute. Qed.

Example nested_with_values_fields :
  fields (Some nested_with_values) [] = Ok nested_with_values_out.
Proof. by vm_compute. Qed.

Example nested_with_tags :
  fields (Some (VStruct
                  [str "Name" "label=Full Name;id=name" "Michael Scott";
                   str "Password" "type=password;footer=Something super secret!" "";
                   (exported "Address" "",
                    VStruct [str "Street1" "name=street" "123 Test St"])])) []
  = Ok [ set_ID "name"
           (set_Placeholder "Full Name"
              (set_Label "Full Name"
                 (text_field "Name" (Some (VString "Michael Scott")))));
         set_Footer "Something super secret!"
           (set_Type "password" (text_field "Password" (Some (VString ""))));
         set_Name "street" (text_field "Street1" (Some (VString "123 Test St"))) ].
Proof. by vm_compute. Qed.

Example nested_with_nil_ptr :
  fields (Some (VStruct [str "Name" "" "Michael Scott";
                         (exported "Address" "", VNil t_address)])) []
  = Ok [ text_field "Name" (Some (VString "Michael Scott"));
         set_Name "Address.Street1" (text_field "Street1" (Some (VString ""))) ].
Proof. by vm_compute. Qed.

Example nested_anonymous_fields :
  fields (Some nested_anonymous) []
  = Ok [ text_field "Name" (Some (VString ""));
         text_field "City" (Some (VString "")) ].
Proof. by vm_compute. Qed.

Example unexported_fields :
  fields (Some (VStruct [str "Name" "" "Michael Scott";
                         (Decl "data" "form" [] false, VString "foobar")])) []
  = Ok [text_field "Name" (Some (VString "Michael Scott"))].
Proof. by vm_compute. Qed.

Example custom_css_class :
  fields (Some (VStruct [str "Name" "class=custom-css-class" "Michael Scott"])) []
  = Ok [set_Class "custom-css-class"
          (text_field "Name" (Some (VString "Michael Scott")))].
Proof. by vm_compute. Qed.

Example read_only_field :
  fields (Some (VStruct [str "Name" "readonly=true" "Michael Scott"])) []
  = Ok [set_ReadOnly true (text_field "Name" (Some (VString "Michael Scott")))].
Proof. by vm_compute. Qed.

Example not_a_struct :
  fields (Some (VString "x")) [] = Panic "invalid value; only structs are supported".
Proof. by vm_compute. Qed.

End tests.

Lemma Ok_inj {A} (a b : A) : Ok a = Ok b -> a = b.
Proof. by intros [= ->]. Qed.

(** ** Induction on types and the loops of [walk] and [preorder] *)

Section rtype_induction.
Variable P : reflect.rtype -> Prop.
Hypothesis HBool : P reflect.TBool.
Hypothesis HInt : P reflect.TInt.
Hypothesis HString : P reflect.TString.
Hypothesis HInterface : P reflect.TInterface.
Hypothesis HPointer : forall elem, P elem -> P (reflect.TPointer elem).
Hypothesis HStruct : forall fs, Forall (fun p => P (snd p)) fs -> P (reflect.TStruct fs).

Lemma rtype_nested_ind : forall t, P t.
Proof.
  fix IH 1. intros [| | | | elem | fs].
  - exact HBool.
  - exact HInt.
  - exact HString.
  - exact HInterface.
  - apply HPointer, IH.
  - apply HStruct. induction fs as [|p rest IHrest]; constructor; [apply IH|exact IHrest].
Qed.

End rtype_induction.

(** Induction on struct types: the hypothesis covers the struct of every
    component that is one or points to one. *)
Lemma struct_ind (P : list (reflect.decl * reflect.rtype) -> Prop) :
  (forall fs,
      Forall (fun p => forall gs, struct_of (snd p) = Some gs -> P gs) fs -> P fs) ->
  forall fs, P fs.
Proof.
  intros H fs.
  cut (forall t gs, struct_of t = Some gs -> P gs).
  { intros Hall. by apply (Hall (reflect.TStruct fs)). }
  clear fs.
  induction t as [| | | | elem IH | fs IH] using rtype_nested_ind;
    intros gs Hgs; try done.
  - destruct elem; try done. simpl in Hgs. simplify_eq. by apply IH.
  - simpl in Hgs. simplify_eq. by apply H.
Qed.

Section loops.
Import reflect.

Lemma walk_loop_cons index d ft rest i w :
  walk_loop index ((d, ft) :: rest) i w =
  walk_loop index rest (S i)
    (walk_embedded d ft (index ++ [i]) (visit (field_of d ft (index ++ [i])) w)).
Proof. done. Qed.

Lemma walk_struct fs index w :
  walk (TStruct fs) index w = walk_loop index fs 0 w.
Proof.
  unfold walk_loop. simpl. generalize 0. revert w.
  induction fs as [|[d ft] rest IH]; intros w i; [done|].
  rewrite <- IH. unfold walk_embedded.
  destruct (decl_anonymous d); [|done].
  by destruct ft as [| | | |[]|].
Qed.

Lemma preorder_loop_cons index d ft rest i :
  preorder_loop index ((d, ft) :: rest) i =
  [field_of d ft (index ++ [i])] ++ preorder_embedded d ft (index ++ [i])
    ++ preorder_loop index rest (S i).
Proof. done. Qed.

Lemma preorder_struct fs index :
  preorder (TStruct fs) index = preorder_loop index fs 0.
Proof.
  unfold preorder_loop. simpl. generalize 0.
  induction fs as [|[d ft] rest IH]; intros i; [done|].
  rewrite <- IH. unfold preorder_embedded.
  destruct (decl_anonymous d); [|done].
  by destruct ft as [| | | |[]|].
Qed.

End loops.

#[global] Arguments reflect.walk : simpl never.
#[global] Arguments preorder : simpl never.

(** ** [VisibleFields] chooses from the declaration order *)

Section visible.
Import reflect.

Lemma stands_for_hide f c : stands_for f c -> stands_for (hide f) c.
Proof. intros [->| ->]; by right. Qed.

Lemma chosen_from_skip l cands c :
  chosen_from l cands -> chosen_from l (cands ++ [c]).
Proof.
  intros (l' & Hsub & Hall). exists l'. split; [|done].
  by apply sublist_inserts_r.
Qed.

Lemma chosen_from_snoc l cands c :
  chosen_from l cands -> chosen_from (l ++ [c]) (cands ++ [c]).
Proof.
  intros (l' & Hsub & Hall). exists (l' ++ [c]). split.
  - by apply sublist_app.
  - apply Forall2_app; [done|]. constructor; [by left|constructor].
Qed.

Lemma chosen_from_hide l cands i old :
  l !! i = Some old ->
  chosen_from l cands -> chosen_from (<[i := hide old]> l) cands.
Proof.
  intros Hi (l' & Hsub & Hall). exists l'. split; [done|].
  destruct (Forall2_lookup_l _ _ _ _ _ Hall Hi) as (c & Hc & Hst).
  rewrite <- (list_insert_id l' i c) by done.
  apply Forall2_insert; [done|]. by apply stands_for_hide.
Qed.

Lemma visit_chosen_from f w cands :
  chosen_from (w_fields w) cands ->
  chosen_from (w_fields (visit f w)) (cands ++ [f]).
Proof.
  intros H. unfold visit.
  destruct (byName w !! Name f) as [oldIndex|]; simpl;
    [|by apply chosen_from_snoc].
  destruct (w_fields w !! oldIndex) as [old|] eqn:Hold;
    [|by apply chosen_from_skip].
  repeat case_decide; simpl.
  - by apply chosen_from_skip, chosen_from_hide.
  - by apply chosen_from_snoc, chosen_from_hide.
  - by apply chosen_from_skip.
Qed.

Lemma walk_chosen_from fs :
  forall index w cands,
    chosen_from (w_fields w) cands ->
    chosen_from (w_fields (walk (TStruct fs) index w))
      (cands ++ preorder (TStruct fs) index).
Proof.
  induction fs as [fs IH] using struct_ind. intros index w cands H.
  rewrite walk_struct, preorder_struct. generalize 0.
  revert w cands H.
  induction IH as [|[d ft] rest IHft _ IHrest]; intros w cands H i.
  { simpl. by rewrite app_nil_r. }
  rewrite walk_loop_cons, preorder_loop_cons, !(assoc_L (++)).
  apply IHrest.
  apply (visit_chosen_from (field_of d ft (index ++ [i]))) in H.
  unfold walk_embedded, preorder_embedded.
  destruct (decl_anonymous d); [|by rewrite app_nil_r].
  destruct (struct_of ft) as [gs|] eqn:Hgs; [|by rewrite app_nil_r].
  by apply IHft.
Qed.

Lemma VisibleFields_struct fs :
  VisibleFields (TStruct fs) =
  Ok (filter (fun f => Name f ≠ "")
        (w_fields (walk (TStruct fs) [] {| byName := ∅; w_fields := [] |}))).
Proof. done. Qed.

Lemma VisibleFields_sublist t vFields :
  VisibleFields t = Ok vFields -> vFields `sublist_of` preorder t [].
Proof.
  destruct t as [| | | | |fs]; try done.
  rewrite VisibleFields_struct. intros H%Ok_inj. subst vFields.
  assert (chosen_from [] []) as H by (exists []; split; constructor).
  apply (walk_chosen_from fs [] {| byName := ∅; w_fields := [] |}) in H.
  destruct H as (l' & Hsub & Hall).
  rewrite app_nil_l in Hsub. etrans; [|exact Hsub]. clear Hsub.
  generalize dependent (w_fields (walk (TStruct fs) [] {| byName := ∅; w_fields := [] |})).
  intros l Hall.
  induction Hall as [|f c l k Hfc _ IH]; [constructor|].
  rewrite filter_cons. case_decide as Hname.
  - destruct Hfc as [->| ->]; [by constructor|done].
  - by constructor.
Qed.

End visible.

(** ** Visible fields are typed components *)

Section typing.
Import reflect.

Lemma preorder_typed fs :
  forall index f,
    f ∈ preorder (TStruct fs) index ->
    exists idx d,
      Index f = index ++ idx
      /\ typed_at (TStruct fs) idx d (Type_ f)
      /\ f = field_of d (Type_ f) (Index f).
Proof.
  induction fs as [fs IH] using struct_ind. intros index f.
  rewrite preorder_struct.
  cut (forall done i, length done = i ->
         f ∈ preorder_loop index fs i ->
         exists idx d, Index f = index ++ idx
           /\ typed_at (TStruct (done ++ fs)) idx d (Type_ f)
           /\ f = field_of d (Type_ f) (Index f)).
  { intros Hcut. by apply (Hcut []). }
  induction IH as [|[d ft] rest IHft _ IHrest]; intros done i Hlen.
  { by intros ?%elem_of_nil. }
  rewrite preorder_loop_cons, !elem_of_app, list_elem_of_singleton.
  assert ((done ++ (d, ft) :: rest) !! i = Some (d, ft)) as Hi.
  { subst i. by rewrite list_lookup_middle. }
  intros [->|[Hin|Hin]].
  - exists [i], d. repeat split. by constructor.
  - unfold preorder_embedded in Hin.
    destruct (decl_anonymous d) eqn:Hanon; [|by apply elem_of_nil in Hin].
    destruct (struct_of ft) as [gs|] eqn:Hgs; [|by apply elem_of_nil in Hin].
    destruct (IHft gs Hgs _ _ Hin) as (idx & d' & Hidx & Hty & Hf).
    exists (i :: idx), d'. split; [|split; [|done]].
    + by rewrite Hidx, <- (assoc_L (++)).
    + by eapply typed_deeper.
  - destruct (IHrest (done ++ [(d, ft)]) (S i)) as (idx & d' & Hidx & Hty & Hf).
    { rewrite length_app. simpl. lia. }
    { done. }
    exists idx, d'. by rewrite <- (assoc_L (++)) in Hty.
Qed.

Lemma typed_at_depth t idx d ft :
  typed_at t idx d ft -> depth ft < depth t.
Proof.
  assert (forall fs i (d : decl) ft,
             fs !! i = Some (d, ft) -> depth ft < depth (TStruct fs)) as Hfield.
  { intros fs i d0 ft0 Hi. simpl. apply Nat.lt_succ_r.
    revert i Hi. induction fs as [|[d' ft'] fs IH]; intros [|i] Hi;
      simplify_eq/=; [lia|]. specialize (IH _ Hi). lia. }
  induction 1 as [fs i d ft Hi|fs i d ft gs idx d' ft' Hi _ Hgs _ IH].
  - by eapply Hfield.
  - apply Hfield in Hi.
    assert (depth (TStruct gs) <= depth ft); [|lia].
    destruct ft as [| | | |[]|]; simplify_eq/=; lia.
Qed.

Lemma TypeOf_struct x fs :
  TypeOf x = TStruct fs ->
  exists vs, x = VStruct vs /\ fs = map (fun p => (fst p, TypeOf (snd p))) vs.
Proof. destruct x; intros; simplify_eq/=. eauto. Qed.

Lemma Field_typed x fs i d ft :
  TypeOf x = TStruct fs -> fs !! i = Some (d, ft) ->
  exists y, Field x i = Ok y /\ TypeOf y = ft.
Proof.
  intros (vs & -> & ->)%TypeOf_struct Hi. simpl.
  rewrite list_lookup_fmap in Hi.
  destruct (vs !! i) as [[d' y]|]; simplify_eq/=. eauto.
Qed.

Lemma FieldByIndex_from_typed t idx d ft :
  typed_at t idx d ft ->
  forall fs first x, t = TStruct fs -> reaches first x fs ->
    (exists rf, FieldByIndex_from first x idx = Ok rf /\ TypeOf rf = ft)
    \/ FieldByIndex_from first x idx = Panic nil_embedded.
Proof.
  induction 1 as [fs i d ft Hi|fs i d ft gs idx d' ft' Hi _ Hgs _ IH];
    intros ? first x [= <-] Hx.
  - assert ((exists y, (if first then Ok x
               else match x with
                    | VNil (TStruct _) => Panic nil_embedded
                    | VPtr (VStruct _ as target) => Ok target
                    | _ => Ok x
                    end) = Ok y /\ TypeOf y = TStruct fs)
            \/ FieldByIndex_from first x [i] = Panic nil_embedded) as [(y & Hy & Hty)|Hp].
    { destruct Hx as [Hx|[-> Hx]].
      - left. exists x. split; [|done].
        destruct first; [done|]. by destruct x as [| | | |[]|[]|].
      - destruct x as [| | | |e|y|]; simplify_eq/=.
        + by right.
        + left. exists y. split; [|done]. by destruct y. }
    + left. destruct (Field_typed y fs i d ft Hty Hi) as (rf & Hrf & Hft).
      exists rf. split; [|done]. simpl. unfold nil_embedded in Hy.
      rewrite Hy. simpl. by rewrite Hrf.
    + by right.
  - assert ((exists y, (if first then Ok x
               else match x with
                    | VNil (TStruct _) => Panic nil_embedded
                    | VPtr (VStruct _ as target) => Ok target
                    | _ => Ok x
                    end) = Ok y /\ TypeOf y = TStruct fs)
            \/ FieldByIndex_from first x (i :: idx) = Panic nil_embedded) as [(y & Hy & Hty)|Hp].
    { destruct Hx as [Hx|[-> Hx]].
      - left. exists x. split; [|done].
        destruct first; [done|]. by destruct x as [| | | |[]|[]|].
      - destruct x as [| | | |e|y|]; simplify_eq/=.
        + by right.
        + left. exists y. split; [|done]. by destruct y. }
    + destruct (Field_typed y fs i d ft Hty Hi) as (rf & Hrf & Hft).
      destruct (IH gs false rf eq_refl) as [(r & Hr & Hrt)|Hr].
      { destruct ft as [| | | |[]|]; simplify_eq/=; [by right|by left]. }
      * left. exists r. split; [|done]. simpl. unfold nil_embedded in Hy.
        rewrite Hy. simpl. by rewrite Hrf.
      * right. simpl. unfold nil_embedded in Hy. rewrite Hy. simpl. by rewrite Hrf.
    + by right.
Qed.

End typing.

Section components.
Import reflect.

Lemma FieldByIndex_from_first x index :
  (exists fs, x = VStruct fs) ->
  FieldByIndex x index = FieldByIndex_from true x index.
Proof.
  intros [fs ->]. destruct index as [|i [|j rest]]; try done.
  simpl. by destruct (fs !! i) as [[]|].
Qed.

Lemma VisibleFields_typed t vFields tf :
  VisibleFields t = Ok vFields -> tf ∈ vFields ->
  exists d, typed_at t (Index tf) d (Type_ tf)
            /\ tf = field_of d (Type_ tf) (Index tf).
Proof.
  intros Hv Hin. apply VisibleFields_sublist, sublist_subseteq in Hv.
  apply Hv in Hin. destruct t as [| | | | |fs]; try by apply elem_of_nil in Hin.
  destruct (preorder_typed fs [] tf Hin) as (idx & d & Hidx & Hty & Hf).
  simpl in Hidx. rewrite <- Hidx in Hty. eauto.
Qed.

(** The component a visible field names exists and has the field's type,
    unless the way to it leads through a nil embedded pointer. *)
Lemma FieldByIndex_visible rv vFields tf :
  VisibleFields (TypeOf rv) = Ok vFields -> tf ∈ vFields ->
  (exists rf, FieldByIndex rv (Index tf) = Ok rf /\ TypeOf rf = Type_ tf)
  \/ FieldByIndex rv (Index tf) = Panic nil_embedded.
Proof.
  intros Hv Hin.
  destruct (VisibleFields_typed _ _ _ Hv Hin) as (d & Hty & _).
  destruct (TypeOf rv) as [| | | | |fs] eqn:Hrv; try done.
  destruct (TypeOf_struct _ _ Hrv) as (vs & -> & _).
  rewrite FieldByIndex_from_first by eauto.
  eapply FieldByIndex_from_typed; [done..|]. by left.
Qed.

Lemma TypeOf_Zero t : TypeOf (Zero t) = t.
Proof.
  induction t as [| | | | elem IH | fs IH] using rtype_nested_ind; try done.
  simpl. f_equal. induction IH as [|[d ft] rest Hft _ IHrest]; [done|].
  simpl in *. by rewrite Hft, IHrest.
Qed.

Lemma component_visible rv vFields tf :
  VisibleFields (TypeOf rv) = Ok vFields -> tf ∈ vFields ->
  (exists rf, component rv tf = Ok rf
              /\ (TypeOf rf = Type_ tf \/ Type_ tf = TPointer (TypeOf rf)))
  \/ component rv tf = Panic nil_embedded.
Proof.
  intros Hv Hin. unfold component.
  destruct (FieldByIndex_visible _ _ _ Hv Hin) as [(rf & -> & Hrf)| ->];
    [|by right].
  left. simpl. destruct (Type_ tf) as [| | | |elem|] eqn:Htf; eauto.
  destruct rf as [| | | |e|y|]; simplify_eq/=.
  - eexists. split; [done|]. rewrite TypeOf_Zero. eauto.
  - eauto.
Qed.

Lemma component_depth rv vFields tf rf :
  VisibleFields (TypeOf rv) = Ok vFields -> tf ∈ vFields ->
  component rv tf = Ok rf -> depth (TypeOf rf) < depth (TypeOf rv).
Proof.
  intros Hv Hin Hrf.
  destruct (VisibleFields_typed _ _ _ Hv Hin) as (d & Hty%typed_at_depth & _).
  destruct (component_visible _ _ _ Hv Hin) as [(rf' & Hrf' & Ht)|Hp];
    [|congruence].
  assert (rf' = rf) as -> by congruence.
  destruct Ht as [->| Ht]; [done|]. rewrite Ht in Hty. simpl in Hty. lia.
Qed.

End components.

(** ** The recursion of [fields] ends *)

Section fuel.
Import reflect.

Implicit Types rec : any -> list string -> outcome (list field).

Lemma fields_step_extends rec1 rec2 rv names tf :
  extends rec1 rec2 ->
  fields_step rec1 rv names tf <> OutOfFuel ->
  fields_step rec2 rv names tf = fields_step rec1 rv names tf.
Proof.
  intros Hext. unfold fields_step.
  destruct (negb (IsExported tf)); [done|].
  destruct (component rv tf) as [rf| |]; simpl; try done.
  case_decide; [|done]. destruct (negb (Anonymous tf)); [|done].
  apply Hext.
Qed.

Lemma fields_loop_extends rec1 rec2 rv names vFields ret :
  extends rec1 rec2 ->
  fields_loop rec1 rv names vFields ret <> OutOfFuel ->
  fields_loop rec2 rv names vFields ret = fields_loop rec1 rv names vFields ret.
Proof.
  intros Hext. revert ret.
  induction vFields as [|tf rest IH]; intros ret; [done|]. simpl.
  destruct (fields_step rec1 rv names tf) as [fs| |] eqn:Hstep; simpl; try done.
  - rewrite (fields_step_extends rec1 rec2), Hstep by (done || congruence).
    simpl. apply IH.
  - by rewrite (fields_step_extends rec1 rec2), Hstep by (done || congruence).
Qed.

Lemma fields_body_extends rec1 rec2 v names :
  extends rec1 rec2 ->
  fields_body rec1 v names <> OutOfFuel ->
  fields_body rec2 v names = fields_body rec1 v names.
Proof.
  intros Hext. unfold fields_body.
  destruct (valueOf v) as [[rv|]| |]; simpl; try done.
  destruct rv; try done.
  destruct (VisibleFields _) as [vFields| |]; simpl; try done.
  by apply fields_loop_extends.
Qed.

Lemma fields_fuel_S n : extends (fields_fuel n) (fields_fuel (S n)).
Proof.
  induction n as [|n IH]; intros v names H; [done|].
  change (fields_body (fields_fuel (S n)) v names = fields_body (fields_fuel n) v names).
  by apply fields_body_extends.
Qed.

Lemma fields_fuel_le n m : n <= m -> extends (fields_fuel n) (fields_fuel m).
Proof.
  induction 1 as [|m _ IH]; intros v names H; [done|].
  rewrite <- (IH v names H). apply fields_fuel_S. by rewrite (IH v names H).
Qed.

Lemma fields_loop_terminates rec rv names vFields ret :
  Forall (fun tf => fields_step rec rv names tf <> OutOfFuel) vFields ->
  fields_loop rec rv names vFields ret <> OutOfFuel.
Proof.
  intros H. revert ret. induction H as [|tf rest Htf _ IH]; intros ret; [done|].
  simpl. destruct (fields_step rec rv names tf); simpl; [apply IH|done..].
Qed.

Lemma valueOf_struct_like rf :
  Value_Kind (Indirect rf) = Struct ->
  exists rv, valueOf (Value_Interface rf) = Ok (Some rv)
             /\ depth (TypeOf rv) <= depth (TypeOf rf)
             /\ Value_Kind (Some rv) = Struct.
Proof.
  destruct rf as [| | | | |[]|fs]; try done; intros _; eexists;
    (split; [reflexivity|]); simpl; split; (done || lia).
Qed.

Lemma valueOf_fuel v rv :
  valueOf v = Ok (Some rv) -> Value_Kind (Some rv) = Struct ->
  fuel_for v = S (depth (TypeOf rv)).
Proof. intros H _. unfold fuel_for. by rewrite H. Qed.

Lemma fields_fuel_enough n : forall v names,
  fuel_for v <= n -> fields_fuel n v names <> OutOfFuel.
Proof.
  induction n as [|n IH]; intros v names Hn.
  { unfold fuel_for in Hn. repeat case_match; lia. }
  simpl. unfold fields_body.
  destruct (valueOf v) as [[rv|]| |] eqn:Hv; simpl; try done;
    [|by destruct v as [[]|]].
  destruct rv as [| | | | | |vs]; try done.
  rewrite (valueOf_fuel _ _ Hv) in Hn by done.
  destruct (VisibleFields _) as [vFields| |] eqn:HvF; try done. simpl.
  apply fields_loop_terminates, Forall_forall. intros tf Htf.
  unfold fields_step. destruct (negb (IsExported tf)); [done|].
  destruct (component _ tf) as [rf| |] eqn:Hrf; simpl; try done.
  - case_decide as Hk; [|done]. destruct (negb (Anonymous tf)); [|done].
    apply IH. pose proof (component_depth _ _ _ _ HvF Htf Hrf) as Hd.
    destruct (valueOf_struct_like rf Hk) as (rv' & Hrv' & Hle & Hk').
    rewrite (valueOf_fuel _ _ Hrv' Hk'). lia.
  - destruct (component_visible _ _ _ HvF Htf) as [(? & ? & _)|?]; congruence.
Qed.

Theorem fields_terminates v names : fields v names <> OutOfFuel.
Proof. by apply fields_fuel_enough. Qed.

Lemma fields_fuel_fields n v names :
  fields_fuel n v names <> OutOfFuel -> fields v names = fields_fuel n v names.
Proof.
  intros H. unfold fields. destruct (decide (n <= fuel_for v)) as [Hle|Hgt].
  - by apply fields_fuel_le.
  - symmetry. apply fields_fuel_le; [lia|]. by apply fields_fuel_enough.
Qed.

(** [fields] is its body, with itself for the recursive call. *)
Theorem fields_unfold v names : fields v names = fields_body fields v names.
Proof.
  pose proof (fields_terminates v names) as Hterm. unfold fields in *.
  destruct (fuel_for v) as [|k]; [done|]. simpl in *.
  symmetry. apply fields_body_extends; [|done].
  intros v' names' H. by apply fields_fuel_fields.
Qed.

End fuel.

(** ** Splitting *)

Section split.
Import strings.

Lemma Split_nonempty s sep : Split s sep <> [].
Proof.
  destruct s as [|c s]; [done|]. simpl.
  destruct (Ascii.eqb c sep); [done|]. by destruct (Split s sep).
Qed.

Lemma Split_no_sep s sep : contains s sep = false -> Split s sep = [s].
Proof.
  induction s as [|c s IH]; [done|]. simpl.
  destruct (Ascii.eqb c sep); [done|]. intros H. by rewrite IH.
Qed.

Lemma Split_app_sep k s sep :
  contains k sep = false ->
  Split (k +:+ String sep s) sep = k :: Split s sep.
Proof.
  induction k as [|c k IH]; simpl.
  - by rewrite Ascii.eqb_refl.
  - destruct (Ascii.eqb c sep); [done|]. intros H. by rewrite IH.
Qed.

Lemma contains_cut s sep :
  contains s sep = true ->
  exists k s', s = k +:+ String sep s' /\ contains k sep = false.
Proof.
  induction s as [|c s IH]; [done|]. simpl.
  destruct (Ascii.eqb c sep) eqn:Hc.
  - apply Ascii.eqb_eq in Hc as ->. intros _. by exists "", s.
  - intros (k & s' & -> & Hk)%IH. exists (String c k), s'.
    split; [done|]. simpl. by rewrite Hc.
Qed.

(** Without the separator there is one piece, the string itself; with it
    there are at least two. *)
Lemma Split_cases s sep :
  (contains s sep = false /\ Split s sep = [s])
  \/ (contains s sep = true /\ exists k v more, Split s sep = k :: v :: more).
Proof.
  destruct (contains s sep) eqn:Hs.
  - right. split; [done|].
    destruct (contains_cut _ _ Hs) as (k & s' & -> & Hk).
    rewrite Split_app_sep by done.
    destruct (Split s' sep) as [|v more] eqn:Hs'; [by apply Split_nonempty in Hs'|].
    eauto.
  - left. split; [done|]. by apply Split_no_sep.
Qed.

End split.

(** ** The annotation parser *)

Section parser.
Import strings.

Lemma parseTags_loop_kv tag k v more rest ret :
  Split tag "=" = k :: v :: more ->
  parseTags_loop (tag :: rest) ret
  = parseTags_loop rest (<[TrimSpace k := TrimSpace v]> ret).
Proof. intros H. simpl. by rewrite H. Qed.

Lemma parseTags_loop_no_eq tag rest ret :
  contains tag "=" = false ->
  parseTags_loop (tag :: rest) ret
  = if decide (tag = "-") then (None, true) else parseTags_loop rest ret.
Proof. intros H. simpl. by rewrite (Split_no_sep _ _ H). Qed.

(** [parseTags] is its loop over the segments of the trimmed string, also
    when that string is empty. *)
Lemma parseTags_segments tags :
  parseTags tags = parseTags_loop (Split (TrimSpace tags) ";") ∅.
Proof.
  unfold parseTags. case_decide as Hlen; [|done].
  by destruct (TrimSpace tags).
Qed.

Lemma parseTags_loop_ignored split ret :
  "-" ∈ split -> parseTags_loop split ret = (None, true).
Proof.
  revert ret. induction split as [|tag rest IH]; intros ret Hin.
  { by apply elem_of_nil in Hin. }
  destruct (Split_cases tag "=") as [[Hno _]|[_ (k & v & more & Hkv)]].
  - rewrite parseTags_loop_no_eq by done. case_decide as Htag; [done|].
    apply IH. apply elem_of_cons in Hin as [?|?]; [congruence|done].
  - rewrite (parseTags_loop_kv _ _ _ _ _ _ Hkv). apply IH.
    apply elem_of_cons in Hin as [<-|?]; [done|done].
Qed.

Lemma parseTags_loop_emitted split ret :
  "-" ∉ split ->
  exists m, parseTags_loop split ret = (Some m, false)
            /\ parseTags_loop (filter (fun tag => contains tag "=" = true) split) ret
               = (Some m, false).
Proof.
  revert ret. induction split as [|tag rest IH]; intros ret Hin.
  { by exists ret. }
  apply not_elem_of_cons in Hin as [Htag Hrest].
  destruct (Split_cases tag "=") as [[Hno _]|[Hyes (k & v & more & Hkv)]].
  - rewrite parseTags_loop_no_eq by done.
    rewrite decide_False by done.
    rewrite filter_cons_False by congruence. by apply IH.
  - rewrite filter_cons_True by done.
    rewrite !(parseTags_loop_kv _ _ _ _ _ _ Hkv). by apply IH.
Qed.

End parser.

Section cutting.
Import strings.

Lemma cut_first_Some s sep k after :
  cut_first s sep = Some (k, after) ->
  s = k +:+ String sep after /\ contains k sep = false.
Proof.
  revert k. induction s as [|c s IH]; intros k; [done|]. simpl.
  destruct (Ascii.eqb c sep) eqn:Hc.
  - apply Ascii.eqb_eq in Hc as ->. by intros [= <- <-].
  - destruct (cut_first s sep) as [[k' v']|]; [|done]. intros [= <- <-].
    destruct (IH k' eq_refl) as [-> Hk]. split; [done|]. simpl. by rewrite Hc.
Qed.

Lemma cut_first_None s sep : cut_first s sep = None -> contains s sep = false.
Proof.
  induction s as [|c s IH]; [done|]. simpl.
  destruct (Ascii.eqb c sep); [done|].
  destruct (cut_first s sep) as [[]|]; [done|]. intros _. by apply IH.
Qed.

(** The first piece of [Split] is what [cut_first] cuts off. *)
Lemma Split_cut_first s sep :
  Split s sep = match cut_first s sep with
                | Some (k, after) => k :: Split after sep
                | None => [s]
                end.
Proof.
  destruct (cut_first s sep) as [[k after]|] eqn:Hcut.
  - apply cut_first_Some in Hcut as [-> Hk]. by apply Split_app_sep.
  - by apply Split_no_sep, cut_first_None.
Qed.

End cutting.

(** ** C2: the value of a key/value segment *)

(** C2, as the code has it: for every segment holding at least one ["="],
    cut at the first one into [k] and [after], the parser stores under the
    trimmed [k] the trimmed part of [after] that precedes the next ["="]:
    all of [after] when it holds no ["="], and otherwise only what comes
    before it, the rest of the segment being dropped. *)
Theorem parseTags_value_ends_at_second_eq tag k after rest ret :
  cut_first tag "=" = Some (k, after) ->
  parseTags_loop (tag :: rest) ret
  = parseTags_loop rest
      (<[strings.TrimSpace k :=
           strings.TrimSpace (match cut_first after "=" with
                              | Some (v, _) => v
                              | None => after
                              end)]> ret).
Proof.
  intros Hcut.
  pose proof (Split_cut_first tag "=") as Htag. rewrite Hcut in Htag.
  pose proof (Split_cut_first after "=") as Hafter.
  destruct (cut_first after "=") as [[v more]|].
  - rewrite Hafter in Htag. by apply parseTags_loop_kv with (more := strings.Split more "=").
  - rewrite Hafter in Htag. by apply parseTags_loop_kv with (more := []).
Qed.

(** C2 on the segment ["footer=a=b"]. *)
Lemma parseTags_value_ends_at_second_eq_witness :
  parseTags_loop ["footer=a=b"] ∅
  = parseTags_loop [] (<[strings.TrimSpace "footer" := strings.TrimSpace "a"]> ∅).
Proof.
  exact (parseTags_value_ends_at_second_eq "footer=a=b" "footer" "a=b" [] ∅ eq_refl).
Defined.

(** C2 as stated fails: the value of ["footer=a=b"] is ["a"], not the
    ["a=b"] that follows the first ["="]. *)
Lemma parseTags_value_not_after_first_eq :
  cut_first "footer=a=b" "=" = Some ("footer", "a=b")
  /\ parseTags "footer=a=b" = (Some {["footer" := "a"]}, false)
  /\ parseTags "footer=a=b" <> (Some {["footer" := "a=b"]}, false).
Proof.
  split; [done|]. split; [by vm_compute|].
  intros H. apply (f_equal (fun r => default ∅ (fst r) !! "footer")) in H.
  vm_compute in H. discriminate.
Qed.

(** ** C8: label and placeholder *)

Lemma applyTags_label f tags l :
  tags !! "label" = Some l ->
  Label (applyTags f tags) = l
  /\ Placeholder (applyTags f tags) = default l (tags !! "placeholder").
Proof.
  intros Hl. unfold applyTags, with_tag. rewrite Hl.
  by repeat (destruct (tags !! _)).
Qed.

(** C8: when the annotation of a leaf component supplies [label], the
    descriptor has that value as its Label and as its Placeholder, unless
    the annotation also supplies [placeholder], whose value is then the
    Placeholder. *)
Theorem label_sets_placeholder names tf rf tags l :
  parseTags (reflect.Get (reflect.Tag tf) "form") = (Some tags, false) ->
  tags !! "label" = Some l ->
  exists d, leaf names tf rf = [d]
            /\ Label d = l
            /\ Placeholder d = default l (tags !! "placeholder").
Proof.
  intros Hparse Hl. unfold leaf. rewrite Hparse. eexists. split; [done|].
  by apply applyTags_label.
Qed.

(** C8 on the annotation ["label=Full Name;placeholder=Jane"]. *)
Lemma label_sets_placeholder_witness :
  exists d,
    leaf [] (reflect.field_of (exported "Name" "label=Full Name;placeholder=Jane") reflect.TString [0])
      (reflect.VString "") = [d]
    /\ Label d = "Full Name"
    /\ Placeholder d = "Jane".
Proof.
  pose (tags := <["placeholder" := "Jane"]> (<["label" := "Full Name"]> ∅)
                : gmap string string).
  refine (label_sets_placeholder []
            (reflect.field_of (exported "Name" "label=Full Name;placeholder=Jane")
               reflect.TString [0])
            (reflect.VString "") tags "Full Name" _ _);
    vm_compute; reflexivity.
Defined.

(** ** C9: the ignore marker and other segments without ["="] *)

(** C9: let [split] be the segments of the trimmed annotation. If one of
    them is exactly ["-"] the parser returns [(nil, true)] and the leaf
    component appends nothing. Otherwise the parser returns a map and
    [false]; the map is the one the segments holding ["="] alone give, so
    every other segment is skipped; and the leaf component appends one
    descriptor, its defaults overridden by that map. *)
Theorem ignore_marker tags names tf rf :
  reflect.Get (reflect.Tag tf) "form" = tags ->
  let split := strings.Split (strings.TrimSpace tags) ";" in
  if decide ("-" ∈ split) then
    parseTags tags = (None, true) /\ leaf names tf rf = []
  else
    exists m,
      parseTags tags = (Some m, false)
      /\ parseTags_loop (filter (fun tag => strings.contains tag "=" = true) split) ∅
         = (Some m, false)
      /\ leaf names tf rf = [applyTags (default_field names tf rf) m].
Proof.
  intros Htag split. unfold leaf. rewrite Htag, parseTags_segments.
  fold split. case_decide as Hin.
  - by rewrite parseTags_loop_ignored.
  - destruct (parseTags_loop_emitted split ∅ Hin) as (m & -> & Hm). eauto.
Qed.

(** C9 on the annotation ["id=x;-"]. *)
Lemma ignore_marker_witness :
  parseTags "id=x;-" = (None, true)
  /\ leaf [] (reflect.field_of (exported "Ignored" "id=x;-") reflect.TString [1])
       (reflect.VString "secret info") = [].
Proof.
  exact (ignore_marker "id=x;-" []
           (reflect.field_of (exported "Ignored" "id=x;-") reflect.TString [1])
           (reflect.VString "secret info") eq_refl).
Defined.

(** ** C1: the key [options] *)

(** C1, on the code: [applyTags] never reads the key [options], and [field]
    has no attribute to hold its tokens. The input of the test "multiple
    options" gives the descriptor that no annotation at all would give. *)
Theorem options_not_recorded :
  (forall f tags, applyTags f (delete "options" tags) = applyTags f tags)
  /\ fields (Some multiple_options) []
     = Ok [ {| Name := "Name"; Label := "Name"; Placeholder := "Name";
               Type_ := "text"; ID := ""; ReadOnly := false;
               Value := Some (reflect.VString "Michael Scott");
               Footer := ""; Class := "" |} ].
Proof.
  split; [|by vm_compute].
  intros f tags. unfold applyTags, with_tag.
  by rewrite !lookup_delete_ne by done.
Qed.

(** ** The loop of [fields] *)

Section flattening.
Import reflect.

Implicit Types rec : any -> list string -> outcome (list field).

(** The loop appends one block per visible field. *)
Lemma fields_loop_blocks rec rv names vFields ret out :
  fields_loop rec rv names vFields ret = Ok out <->
  exists blocks,
    Forall2 (fun tf b => fields_step rec rv names tf = Ok b) vFields blocks
    /\ out = ret ++ concat blocks.
Proof.
  revert ret. induction vFields as [|tf rest IH]; intros ret; simpl.
  - split.
    + intros [= <-]. exists []. split; [constructor|]. by rewrite app_nil_r.
    + intros (blocks & ->%Forall2_nil_inv_l & ->). by rewrite app_nil_r.
  - destruct (fields_step rec rv names tf) as [b| |] eqn:Hstep; simpl.
    + rewrite IH. split.
      * intros (blocks & Hall & ->). exists (b :: blocks).
        split; [by constructor|]. simpl. by rewrite (assoc_L (++)).
      * intros (blocks & Hall & ->).
        apply Forall2_cons_inv_l in Hall as (b' & blocks' & Hb & Hall & ->).
        assert (b' = b) as -> by congruence.
        exists blocks'. split; [done|]. simpl. by rewrite (assoc_L (++)).
    + split; [done|]. intros (blocks & Hall & _).
      apply Forall2_cons_inv_l in Hall as (? & ? & ? & _); congruence.
    + split; [done|]. intros (blocks & Hall & _).
      apply Forall2_cons_inv_l in Hall as (? & ? & ? & _); congruence.
Qed.

Lemma record_struct v rv : record v rv -> exists vs, rv = VStruct vs.
Proof. intros [_ Hk]. destruct rv; try done. eauto. Qed.

Lemma fields_record rec v names rv :
  record v rv ->
  fields_body rec v names
  = do vFields <- VisibleFields (TypeOf rv); fields_loop rec rv names vFields [].
Proof.
  intros Hrec. destruct (record_struct _ _ Hrec) as [vs ->].
  destruct Hrec as [Hv _]. unfold fields_body. by rewrite Hv.
Qed.

(** [fields] returns as soon as one call with fuel does. *)
Lemma fields_fuel_Ok n v names out :
  fields_fuel n v names = Ok out -> fields v names = Ok out.
Proof. intros H. rewrite <- H. apply fields_fuel_fields. by rewrite H. Qed.

Lemma fields_Ok_record v names out :
  fields v names = Ok out -> exists rv, record v rv.
Proof.
  rewrite fields_unfold. unfold fields_body.
  destruct (valueOf v) as [[rv|]| |] eqn:Hv; try done.
  destruct rv; try done. intros _. by eexists.
Qed.

(** Induction on the calls of [fields] that return: [P] holds of a call when
    it holds of the recursive calls, one per named nested record. *)
Lemma fields_Ok_ind (P : any -> list string -> list field -> Prop) :
  (forall v names rv vFields blocks,
      record v rv ->
      VisibleFields (TypeOf rv) = Ok vFields ->
      Forall2 (fun tf b =>
                 fields_step fields rv names tf = Ok b
                 /\ (forall rf,
                        IsExported tf = true ->
                        component rv tf = Ok rf ->
                        Value_Kind (Indirect rf) = Struct ->
                        Anonymous tf = false ->
                        P (Value_Interface rf) (names ++ [Name tf]) b))
              vFields blocks ->
      P v names (concat blocks)) ->
  forall v names out, fields v names = Ok out -> P v names out.
Proof.
  intros Hstep v names out Hout. unfold fields in Hout.
  generalize dependent (fuel_for v). intros n. revert v names out.
  induction n as [|n IH]; intros v names out Hout; [done|].
  destruct (fields_Ok_record _ _ _ (fields_fuel_Ok _ _ _ _ Hout)) as [rv Hrec].
  simpl in Hout. rewrite (fields_record _ _ _ _ Hrec) in Hout.
  destruct (VisibleFields (TypeOf rv)) as [vFields| |] eqn:HvF; try done.
  simpl in Hout. apply fields_loop_blocks in Hout as (blocks & Hall & ->).
  apply (Hstep v names rv vFields); [done..|].
  eapply Forall2_impl; [exact Hall|]. intros tf b Hb. split.
  - rewrite <- Hb. apply fields_step_extends; [|by rewrite Hb].
    intros ???. by apply fields_fuel_fields.
  - intros rf Hex Hrf Hk Han. apply IH.
    unfold fields_step in Hb. rewrite Hex, Hrf in Hb. simpl in Hb.
    by rewrite decide_True, Han in Hb.
Qed.

Lemma fields_blocks v names rv vFields out :
  record v rv -> VisibleFields (TypeOf rv) = Ok vFields ->
  fields v names = Ok out <->
  exists blocks,
    Forall2 (fun tf b => fields_step fields rv names tf = Ok b) vFields blocks
    /\ out = concat blocks.
Proof.
  intros Hrec HvF. rewrite fields_unfold, (fields_record _ _ _ _ Hrec), HvF.
  simpl. by rewrite fields_loop_blocks.
Qed.

End flattening.

(** ** C3: the Name of a descriptor *)

Lemma parseTags_loop_result split ret :
  parseTags_loop split ret = (None, true)
  \/ exists m, parseTags_loop split ret = (Some m, false).
Proof.
  destruct (decide ("-" ∈ split)) as [Hin|Hin].
  - left. by apply parseTags_loop_ignored.
  - right. destruct (parseTags_loop_emitted split ret Hin) as (m & Hm & _). eauto.
Qed.

Lemma parseTags_result tags :
  parseTags tags = (None, true) \/ exists m, parseTags tags = (Some m, false).
Proof. rewrite parseTags_segments. apply parseTags_loop_result. Qed.

(** A leaf appends nothing, or one descriptor built from the parsed map. *)
Lemma leaf_cases names tf rf :
  (parseTags (reflect.Get (reflect.Tag tf) "form") = (None, true)
   /\ leaf names tf rf = [])
  \/ exists m, parseTags (reflect.Get (reflect.Tag tf) "form") = (Some m, false)
               /\ leaf names tf rf = [applyTags (default_field names tf rf) m].
Proof.
  unfold leaf.
  destruct (parseTags_result (reflect.Get (reflect.Tag tf) "form")) as [->|[m ->]];
    eauto.
Qed.

Lemma applyTags_Name f tags :
  Name (applyTags f tags) = default (Name f) (tags !! "name").
Proof. unfold applyTags, with_tag. by repeat (destruct (tags !! _)). Qed.

Lemma Forall2_concat_elem {A B} (R : A -> list B -> Prop) l blocks x :
  Forall2 R l blocks -> x ∈ concat blocks ->
  exists a b, a ∈ l /\ R a b /\ x ∈ b.
Proof.
  induction 1 as [|a b l blocks HR _ IH]; simpl.
  - by intros ?%elem_of_nil.
  - intros [Hx|Hx]%elem_of_app.
    + exists a, b. split; [by left|done].
    + destruct (IH Hx) as (a' & b' & Ha & HR' & Hb).
      exists a', b'. split; [by right|done].
Qed.

(** C3: every descriptor [fields v names] returns belongs to a leaf
    component; its Name is the value the component's annotation gives for
    [name] if it gives one, and else the dot-joined [names] followed by the
    declared names from [v] down to the component. For the call on the root
    record [names] is empty. *)
Theorem names_are_paths v names out d :
  fields v names = Ok out ->
  d ∈ out ->
  exists path tf rf tags,
    leaf_path v path tf rf
    /\ parseTags (reflect.Get (reflect.Tag tf) "form") = (Some tags, false)
    /\ Name d = match tags !! "name" with
                | Some name => name
                | None => strings.Join (names ++ path) "."
                end.
Proof.
  intros Hout. revert d. revert v names out Hout.
  apply (fields_Ok_ind (fun v names out => forall d, d ∈ out -> _)).
  intros v names rv vFields blocks [Hv Hk] HvF Hall d Hd.
  destruct (Forall2_concat_elem _ _ _ _ Hall Hd) as (tf & b & Htf & [Hb IH] & Hdb).
  unfold fields_step in Hb.
  destruct (reflect.IsExported tf) eqn:Hex; simpl in Hb;
    [|injection Hb as <-; by apply elem_of_nil in Hdb].
  destruct (component rv tf) as [rf| |] eqn:Hrf; simpl in Hb; try done.
  case_decide as Hkind.
  - destruct (reflect.Anonymous tf) eqn:Han; simpl in Hb;
      [injection Hb as <-; by apply elem_of_nil in Hdb|].
    destruct (IH rf eq_refl eq_refl Hkind eq_refl d Hdb)
      as (path & tf' & rf' & tags & Hpath & Htags & Hname).
    exists (reflect.Name tf :: path), tf', rf', tags. split; [|split; [done|]].
    + by eapply leaf_path_nested.
    + by rewrite <- (assoc_L (++)) in Hname.
  - injection Hb as <-.
    destruct (leaf_cases names tf rf) as [[_ Hleaf]|(m & Hm & Hleaf)];
      rewrite Hleaf in Hdb; [by apply elem_of_nil in Hdb|].
    apply list_elem_of_singleton in Hdb as ->.
    exists [reflect.Name tf], tf, rf, m. split; [|split; [done|]].
    + by eapply leaf_path_here.
    + rewrite applyTags_Name. by destruct (m !! "name").
Qed.

(** C3 on the descriptor of [Address.Street1] of the test "nested with
    values". *)
Lemma names_are_paths_witness :
  exists path tf rf tags,
    leaf_path (Some nested_with_values) path tf rf
    /\ parseTags (reflect.Get (reflect.Tag tf) "form") = (Some tags, false)
    /\ "Address.Street1" = match tags !! "name" with
                           | Some name => name
                           | None => strings.Join ([] ++ path) "."
                           end.
Proof.
  refine (names_are_paths (Some nested_with_values) [] nested_with_values_out
            {| Name := "Address.Street1"; Label := "Street1"; Placeholder := "Street1";
               Type_ := "text"; ID := ""; ReadOnly := false;
               Value := Some (reflect.VString "123 Test St"); Footer := ""; Class := "" |}
            _ _).
  - vm_compute. reflexivity.
  - right. left.
Defined.

(** ** Blocks *)

Lemma fields_step_block rv names tf b :
  fields_step fields rv names tf = Ok b <-> block rv names tf b.
Proof.
  unfold fields_step. split.
  - destruct (reflect.IsExported tf) eqn:Hex; simpl;
      [|intros [= <-]; by constructor].
    destruct (component rv tf) as [rf| |] eqn:Hrf; simpl; try done.
    case_decide as Hkind.
    + destruct (reflect.Anonymous tf) eqn:Han; simpl.
      * intros [= <-]. by eapply block_embedded.
      * intros Hb. by eapply block_nested.
    + intros [= <-]. by eapply block_leaf.
  - intros [Hex|rf Hex Hrf Hkind Han|rf b' Hex Hrf Hkind Han Hb|rf Hex Hrf Hkind];
      rewrite Hex; simpl; [done|rewrite Hrf; simpl..].
    + by rewrite decide_True, Han.
    + by rewrite decide_True, Han.
    + by rewrite decide_False.
Qed.

(** The output of [fields] is the blocks of the visible fields, in the
    order of [VisibleFields]. *)
Lemma fields_concat_blocks v names rv vFields out :
  record v rv -> reflect.VisibleFields (reflect.TypeOf rv) = Ok vFields ->
  fields v names = Ok out <->
  exists blocks, Forall2 (block rv names) vFields blocks /\ out = concat blocks.
Proof.
  intros Hrec HvF. rewrite (fields_blocks _ _ _ _ _ Hrec HvF).
  split; intros (blocks & Hall & ->); exists blocks; (split; [|done]);
    (eapply Forall2_impl; [exact Hall|]); intros tf b; by rewrite fields_step_block.
Qed.

(** ** C7: the order of the descriptors *)

(** C7: the visible fields of a record are a selection, in order, of its
    components in the order of their declaration, every embedded record
    followed at once by its own components; and the output of [fields] is
    the concatenation, in that order, of the blocks of the visible fields,
    where the block of a named nested record is the whole output of [fields]
    for that record, itself ordered in the same way. *)
Theorem declaration_order v names rv vFields out :
  record v rv ->
  reflect.VisibleFields (reflect.TypeOf rv) = Ok vFields ->
  fields v names = Ok out ->
  vFields `sublist_of` preorder (reflect.TypeOf rv) []
  /\ exists blocks, Forall2 (block rv names) vFields blocks /\ out = concat blocks.
Proof.
  intros Hrec HvF Hout. split.
  - by apply VisibleFields_sublist.
  - by apply (fields_concat_blocks v names rv vFields out).
Qed.

(** ** Records without clashing names *)

Section no_clash.
Import reflect.

#[local] Set Warnings "-clear-no-such-hyp".








End no_clash.

(** ** C6: nested records, named and embedded *)

Lemma block_functional rv names tf b b' :
  block rv names tf b -> block rv names tf b' -> b = b'.
Proof. rewrite <- !fields_step_block. congruence. Qed.

Lemma Forall2_elem_concat {A B} (R : A -> list B -> Prop) l blocks a :
  Forall2 R l blocks -> a ∈ l ->
  exists b, R a b /\ forall x, x ∈ b -> x ∈ concat blocks.
Proof.
  induction 1 as [|a' b' l blocks HR _ IH]; [by intros ?%elem_of_nil|].
  intros [->|Ha]%elem_of_cons; simpl.
  - exists b'. split; [done|]. intros x Hx. apply elem_of_app. by left.
  - destruct (IH Ha) as (b & Hb & Hsub). exists b. split; [done|].
    intros x Hx. apply elem_of_app. right. by apply Hsub.
Qed.




(** C7 on the input of the test "nested with values". *)
Lemma declaration_order_witness :
  [reflect.field_of (exported "Name" "") reflect.TString [0];
   reflect.field_of (exported "Address" "")
     (reflect.TStruct [(exported "Street1" "", reflect.TString)]) [1]]
  `sublist_of` preorder (reflect.TypeOf nested_with_values) []
  /\ exists blocks,
       Forall2 (block nested_with_values [])
         [reflect.field_of (exported "Name" "") reflect.TString [0];
          reflect.field_of (exported "Address" "")
            (reflect.TStruct [(exported "Street1" "", reflect.TString)]) [1]]
         blocks
       /\ nested_with_values_out = concat blocks.
Proof.
  apply (declaration_order (Some nested_with_values) [] nested_with_values).
  - split; reflexivity.
  - vm_compute. reflexivity.
  - vm_compute. reflexivity.
Defined.

(** ** Records that differ in the annotations of record components *)

Section value_induction.
Variable P : reflect.value -> Prop.
Hypothesis HBool : forall b, P (reflect.VBool b).
Hypothesis HInt : forall i, P (reflect.VInt i).
Hypothesis HString : forall s, P (reflect.VString s).
Hypothesis HInterface : forall dyn, P (reflect.VInterface dyn).
Hypothesis HNil : forall elem, P (reflect.VNil elem).
Hypothesis HPtr : forall target, P target -> P (reflect.VPtr target).
Hypothesis HStruct : forall vs, Forall (fun p => P (snd p)) vs -> P (reflect.VStruct vs).

Lemma value_nested_ind : forall x, P x.
Proof.
  fix IH 1. intros [b|i|s|dyn|elem|target|vs].
  - apply HBool.
  - apply HInt.
  - apply HString.
  - apply HInterface.
  - apply HNil.
  - apply HPtr, IH.
  - apply HStruct. induction vs as [|p rest IHrest]; constructor; [apply IH|exact IHrest].
Qed.

End value_induction.

Section record_tags_walk.
Import reflect.

Lemma comp_rel_refl {A} (R : A -> A -> Prop) (l : list (decl * A)) :
  Forall2 (comp_rel R) l l.
Proof. induction l as [|p l IH]; constructor; [|done]. repeat split. by left. Qed.

Lemma comp_rel_map {A B} (R : A -> A -> Prop) (S : B -> B -> Prop) (g : A -> B) l l' :
  Forall (fun p => forall y, R p.2 y -> S (g p.2) (g y)) l ->
  Forall2 (comp_rel R) l l' ->
  Forall2 (comp_rel S) (map (fun p => (p.1, g p.2)) l) (map (fun p => (p.1, g p.2)) l').
Proof.
  intros Hall H2. induction H2 as [|p p' l l' (Hn & Hp & Ha & Hr) _ IH];
    [constructor|].
  apply Forall_cons in Hall as [Hhead Hall]. simpl. constructor; [|by apply IH].
  repeat split; try done. simpl. destruct Hr as [<-|Hr]; [by left|].
  right. by apply Hhead.
Qed.

Lemma tags_differ_t_record t t' :
  tags_differ_t t t' -> exists gs, struct_of t = Some gs.
Proof. destruct 1; by eexists. Qed.

(** Related records have related types. *)
Lemma TypeOf_rel : forall x x', tags_differ x x' -> tags_differ_t (TypeOf x) (TypeOf x').
Proof.
  induction x as [| | | | |y IH|vs IH] using value_nested_ind; intros x' Hx;
    inversion Hx as [? vs' Hvs|vs0 vs' Hvs|fs fs' Hfs]; subst.
  - by constructor.
  - specialize (IH _ (tags_differ_VStruct _ _ Hvs)). simpl in IH.
    inversion IH; subst. by constructor.
  - simpl. constructor. by apply (comp_rel_map tags_differ tags_differ_t TypeOf).
Qed.

(** The zero values of related types are related. *)
Lemma Zero_rel : forall t t', tags_differ_t t t' -> tags_differ (Zero t) (Zero t').
Proof.
  induction t as [| | | | elem IH | fs IH] using rtype_nested_ind; intros t' Ht;
    inversion Ht as [? fs' Hfs|fs0 fs' Hfs]; subst.
  - by constructor.
  - simpl. constructor. by apply (comp_rel_map tags_differ_t tags_differ Zero).
Qed.

Lemma field_rel_refl f : field_rel f f.
Proof. repeat split. by left. Qed.

Lemma field_rel_hide f f' : field_rel f f' -> field_rel (hide f) (hide f').
Proof.
  intros (Hn & Hp & Hi & Ha & Hr). repeat split; try done.
  destruct Hr as [->|Hr]; [by left|by right].
Qed.

Lemma field_rel_field_of d ft d' ft' index :
  comp_rel tags_differ_t (d, ft) (d', ft') ->
  field_rel (field_of d ft index) (field_of d' ft' index).
Proof.
  intros (Hn & Hp & Ha & Hr). repeat split; try done. simpl in *.
  destruct Hr as [[= -> ->]|Hr]; [by left|by right].
Qed.

Lemma visit_rel f f' w w' :
  field_rel f f' -> walker_rel w w' -> walker_rel (visit f w) (visit f' w').
Proof.
  intros Hf [Hn Hw]. pose proof Hf as (HN & _ & HI & _).
  pose proof (Forall2_length _ _ _ Hw) as Hlen.
  unfold visit. rewrite <- Hn, <- HN, <- HI, <- Hlen.
  destruct (byName w !! Name f) as [oldIndex|]; simpl.
  - destruct (w_fields w !! oldIndex) as [old|] eqn:Hold.
    + destruct (Forall2_lookup_l _ _ _ _ _ Hw Hold) as (old' & -> & Hrel).
      pose proof Hrel as (_ & _ & HI' & _). rewrite <- HI'.
      assert (Forall2 field_rel (<[oldIndex := hide old]> (w_fields w))
                (<[oldIndex := hide old']> (w_fields w'))) as Hhid.
      { apply Forall2_insert; [done|]. by apply field_rel_hide. }
      repeat case_decide; split; simpl; try done.
      * by rewrite !length_insert, Hlen.
      * apply Forall2_app; [done|]. by constructor.
    + assert (w_fields w' !! oldIndex = None) as ->.
      { apply lookup_ge_None. rewrite <- Hlen. by apply lookup_ge_None. }
      by split.
  - split; simpl; [done|]. apply Forall2_app; [done|]. by constructor.
Qed.

(** The walk of related types gives related walkers. *)
Lemma walk_rel fs :
  forall fs' index w w',
    Forall2 (comp_rel tags_differ_t) fs fs' -> walker_rel w w' ->
    walker_rel (walk (TStruct fs) index w) (walk (TStruct fs') index w').
Proof.
  induction fs as [fs IH] using struct_ind. intros fs' index w w' Hfs.
  rewrite !walk_struct. generalize 0. revert w w' IH.
  induction Hfs as [|[d ft] [d' ft'] rest rest' Hp _ IHrest]; intros w w' IH j Hw;
    [done|].
  apply Forall_cons in IH as [IHft IH]. rewrite !walk_loop_cons.
  apply IHrest; [done|].
  pose proof (visit_rel _ _ _ _ (field_rel_field_of _ _ _ _ (index ++ [j]) Hp) Hw)
    as Hvisit.
  destruct Hp as (_ & _ & Ha & Hr). simpl in *.
  unfold walk_embedded. rewrite <- Ha. destruct (decl_anonymous d); [|done].
  destruct Hr as [[= <- <-]|Hr].
  - destruct (struct_of ft) as [gs|] eqn:Hgs; [|done].
    apply (IHft gs eq_refl); [apply comp_rel_refl|done].
  - inversion Hr as [gs gs' Hgs|gs gs' Hgs]; subst; simpl;
      by apply (IHft gs eq_refl).
Qed.

Lemma filter_named_rel l l' :
  Forall2 field_rel l l' ->
  Forall2 field_rel (filter (fun f => Name f ≠ "") l) (filter (fun f => Name f ≠ "") l').
Proof.
  induction 1 as [|f f' l l' Hf _ IH]; [constructor|].
  rewrite !filter_cons. pose proof Hf as (HN & _). rewrite <- HN.
  case_decide; [by constructor|done].
Qed.

Lemma VisibleFields_rel fs fs' :
  Forall2 (comp_rel tags_differ_t) fs fs' ->
  exists vFields vFields',
    VisibleFields (TStruct fs) = Ok vFields
    /\ VisibleFields (TStruct fs') = Ok vFields'
    /\ Forall2 field_rel vFields vFields'.
Proof.
  intros Hfs. rewrite !VisibleFields_struct. eexists _, _.
  split; [done|]. split; [done|]. apply filter_named_rel.
  apply (walk_rel fs fs' [] _ _ Hfs). split; [done|constructor].
Qed.

End record_tags_walk.

Section component_kinds.
Import reflect.

(** Whether a component counts as a nested record is a matter of its
    declared type alone; so is the type of that record. *)
Lemma component_kind rv vFields tf rf :
  VisibleFields (TypeOf rv) = Ok vFields -> tf ∈ vFields ->
  component rv tf = Ok rf ->
  match struct_of (Type_ tf) with
  | Some gs =>
      Value_Kind (Indirect rf) = Struct
      /\ exists rv', record (Value_Interface rf) rv' /\ TypeOf rv' = TStruct gs
  | None => Value_Kind (Indirect rf) <> Struct
  end.
Proof.
  intros HvF Htf. unfold component.
  destruct (FieldByIndex_visible _ _ _ HvF Htf) as [(rf0 & -> & Hty)| ->];
    [|done].
  simpl. rewrite <- Hty.
  destruct rf0 as [| | | |e|y|vs]; simpl; try (by intros [= <-]).
  - intros [= <-]. destruct e as [| | | | |gs]; try done. split; [done|].
    exists (Zero (TStruct gs)). split; [by split|]. by rewrite TypeOf_Zero.
  - intros [= <-]. destruct y as [| | | | | |vs]; try done. split; [done|].
    eexists. split; [by split|done].
  - intros [= <-]. split; [done|]. eexists. split; [by split|done].
Qed.

End component_kinds.

(** ** Components of records that differ in such annotations *)

Section record_tags_components.
Import reflect.

Lemma same_outcome_refl {A} (R : A -> A -> Prop) (o : outcome A) :
  (forall a, R a a) -> same_outcome R o o.
Proof. intros HR. destruct o; simpl; auto. Qed.

Lemma same_outcome_bind {A B} (R : A -> A -> Prop) (S : B -> B -> Prop)
    (o o' : outcome A) (k k' : A -> outcome B) :
  same_outcome R o o' ->
  (forall a a', R a a' -> same_outcome S (k a) (k' a')) ->
  same_outcome S (obind o k) (obind o' k').
Proof. destruct o, o'; simpl; try done; auto; by intros ->. Qed.

Lemma val_rel_refl x : val_rel x x.
Proof. by left. Qed.

Lemma Field_rel x x' i :
  val_rel x x' -> same_outcome val_rel (Field x i) (Field x' i).
Proof.
  intros [->|Hx]; [apply same_outcome_refl, val_rel_refl|].
  inversion Hx as [vs vs' Hvs|vs vs' Hvs|fs fs' Hfs]; subst; simpl; try done.
  destruct (vs !! i) as [[d y]|] eqn:Hi.
  - destruct (Forall2_lookup_l _ _ _ _ _ Hvs Hi) as ([d' y'] & -> & Hp).
    simpl. destruct Hp as (_ & _ & _ & [[= _ ->]|Hr]); [by left|by right].
  - assert (vs' !! i = None) as ->; [|done].
    apply lookup_ge_None. rewrite <- (Forall2_length _ _ _ Hvs).
    by apply lookup_ge_None.
Qed.

Lemma FieldByIndex_from_rel index :
  forall first x x',
    val_rel x x' ->
    same_outcome val_rel (FieldByIndex_from first x index)
      (FieldByIndex_from first x' index).
Proof.
  induction index as [|i rest IH]; intros first x x' Hx; [done|].
  simpl. apply (same_outcome_bind val_rel).
  - destruct first; [done|].
    destruct Hx as [->|Hx]; [apply same_outcome_refl, val_rel_refl|].
    inversion Hx as [vs vs' Hvs|vs vs' Hvs|fs fs' Hfs]; subst; simpl; try done.
    + by right.
    + right. by constructor.
  - intros y y' Hy. apply (same_outcome_bind val_rel); [by apply Field_rel|].
    intros f f' Hf. by apply IH.
Qed.

Lemma FieldByIndex_rel vs vs' index :
  val_rel (VStruct vs) (VStruct vs') ->
  same_outcome val_rel (FieldByIndex (VStruct vs) index)
    (FieldByIndex (VStruct vs') index).
Proof.
  intros Hx. rewrite !FieldByIndex_from_first by eauto.
  by apply FieldByIndex_from_rel.
Qed.

Lemma tags_differ_kind rf rf' :
  tags_differ rf rf' ->
  Value_Kind (Indirect rf') = Value_Kind (Indirect rf).
Proof. by destruct 1. Qed.

Lemma component_rel_kind rf rf' :
  component_rel rf rf' ->
  Value_Kind (Indirect rf') = Value_Kind (Indirect rf).
Proof. intros [->|[H _]]; [done|by apply tags_differ_kind]. Qed.

(** The components that a visible field names in two such records are the
    same value, or two nested records that differ in such tags. *)
Lemma component_related vs vs' vFields tf tf' :
  VisibleFields (TypeOf (VStruct vs)) = Ok vFields -> tf ∈ vFields ->
  val_rel (VStruct vs) (VStruct vs') -> field_rel tf tf' ->
  same_outcome component_rel (component (VStruct vs) tf) (component (VStruct vs') tf').
Proof.
  intros HvF Htf Hrv (_ & _ & HI & _ & Hty). unfold component. rewrite <- HI.
  pose proof (FieldByIndex_rel vs vs' (Index tf) Hrv) as Hrel.
  destruct (FieldByIndex_visible _ _ _ HvF Htf) as [(rf0 & Hrf0 & Htype)|Hp].
  2: { rewrite Hp in *.
       destruct (FieldByIndex (VStruct vs') (Index tf)); simpl in *; try done;
         by subst. }
  rewrite Hrf0 in *.
  destruct (FieldByIndex (VStruct vs') (Index tf)) as [rf0'| |]; simpl in *;
    try done.
  destruct Hty as [<-|Hty].
  - (* the same field *)
    destruct Hrel as [<-|Hrel].
    { apply same_outcome_refl. by left. }
    inversion Hrel as [ws ws' Hws|ws ws' Hws|fs fs' Hfs]; subst;
      rewrite <- Htype; simpl.
    + by right.
    + by right.
    + by left.
  - (* a record whose type differs in tags *)
    inversion Hty as [fs fs' Hfs Heq Heq'|fs fs' Hfs Heq Heq']; simpl.
    + destruct Hrel as [<-|Hrel]; [by left|]. right. split; [done|].
      rewrite <- Heq in Htype. by destruct rf0.
    + rewrite <- Heq in Htype.
      destruct rf0 as [| | | |e|y|]; simplify_eq/=.
      * assert (rf0' = VNil (TStruct fs) \/ exists fs0, rf0' = VNil (TStruct fs0))
          as Hnil.
        { destruct Hrel as [<-|Hrel]; [by left|]. inversion Hrel; subst. eauto. }
        assert (IsNil rf0' = Ok true) as -> by (by destruct Hnil as [->|[? ->]]).
        simpl. right. split; [|done].
        apply (Zero_rel (TStruct fs) (TStruct fs')). by constructor.
      * assert (IsNil rf0' = Ok false) as ->.
        { destruct Hrel as [<-|Hrel]; [done|]. by inversion Hrel. }
        simpl. destruct Hrel as [<-|Hrel]; [by left|]. right. split; [done|].
        by destruct y.
Qed.

Lemma valueOf_rel x x' :
  tags_differ x x' ->
  exists vs vs',
    valueOf (Some x) = Ok (Some (VStruct vs))
    /\ valueOf (Some x') = Ok (Some (VStruct vs'))
    /\ tags_differ (VStruct vs) (VStruct vs').
Proof.
  intros Hx. inversion Hx as [vs vs' Hvs|vs vs' Hvs|fs fs' Hfs]; subst.
  - by eexists _, _.
  - eexists _, _. split; [done|]. split; [done|]. by constructor.
  - pose proof (Zero_rel _ _ (tags_differ_TStruct _ _ Hfs)) as Hz.
    simpl in Hz. by eexists _, _.
Qed.

End record_tags_components.

(** ** C10: the annotation of a nested record *)

Section annotation_unused.
Import reflect.

Implicit Types rec : any -> list string -> outcome (list field).

Lemma Forall2_impl_elem {A B} (R S : A -> B -> Prop) l l' :
  Forall2 R l l' -> (forall a b, a ∈ l -> R a b -> S a b) -> Forall2 S l l'.
Proof.
  induction 1 as [|a b l l' Hab _ IH]; intros HS; constructor.
  - apply HS; [by left|done].
  - apply IH. intros a' b' Ha'. apply HS. by right.
Qed.

Lemma fields_loop_pairs rec rv rv' names vFields vFields' :
  Forall2 (fun tf tf' => fields_step rec rv names tf = fields_step rec rv' names tf')
    vFields vFields' ->
  forall ret,
    fields_loop rec rv names vFields ret = fields_loop rec rv' names vFields' ret.
Proof.
  induction 1 as [|tf tf' l l' Hstep _ IH]; intros ret; [done|].
  simpl. rewrite Hstep.
  destruct (fields_step rec rv' names tf'); simpl; [apply IH|done..].
Qed.

(** The body of the loop gives the same for the two records: a nested
    record is passed on, whatever its tag, and a leaf is the same component
    with the same tag in both. *)
Lemma fields_step_rel rec vs vs' names vFields tf tf' :
  (forall v v' names, any_rel v v' -> rec v names = rec v' names) ->
  VisibleFields (TypeOf (VStruct vs)) = Ok vFields -> tf ∈ vFields ->
  val_rel (VStruct vs) (VStruct vs') -> field_rel tf tf' ->
  fields_step rec (VStruct vs) names tf = fields_step rec (VStruct vs') names tf'.
Proof.
  intros Hrec HvF Htf Hrv Hf.
  pose proof (component_related _ _ _ _ _ HvF Htf Hrv Hf) as Hc.
  pose proof Hf as (HN & HP & _ & HA & Hty).
  unfold fields_step, IsExported. rewrite <- HP, <- HN, <- HA.
  destruct (negb (bool_decide (PkgPath tf = ""))); [done|].
  destruct (component (VStruct vs) tf) as [rf| |] eqn:Hrf,
    (component (VStruct vs') tf') as [rf'| |]; simpl in Hc |- *; try done;
    [|by subst].
  rewrite (component_rel_kind _ _ Hc).
  case_decide as Hk.
  - destruct (negb (Anonymous tf)); [|done]. apply Hrec.
    destruct Hc as [->|[Hc _]]; [by left|]. right.
    assert (Value_Interface rf = Some rf /\ Value_Interface rf' = Some rf')
      as [-> ->] by (by destruct Hc).
    by eexists _, _.
  - destruct Hc as [<-|[_ ?]]; [|done].
    destruct Hty as [<-|Hty]; [done|].
    destruct (tags_differ_t_record _ _ Hty) as [gs Hgs].
    pose proof (component_kind _ _ _ _ HvF Htf Hrf) as Hkind.
    rewrite Hgs in Hkind. by destruct Hkind.
Qed.

Lemma fields_fuel_rel n :
  forall v v' names, any_rel v v' -> fields_fuel n v names = fields_fuel n v' names.
Proof.
  induction n as [|n IH]; intros v v' names Hv; [done|].
  destruct Hv as [->|(x & x' & -> & -> & Hx)]; [done|].
  change (fields_body (fields_fuel n) (Some x) names
          = fields_body (fields_fuel n) (Some x') names).
  unfold fields_body.
  destruct (valueOf_rel _ _ Hx) as (vs & vs' & -> & -> & Hrel).
  pose proof (TypeOf_rel _ _ Hrel) as Hty.
  inversion Hty as [fs fs' Hfs Heq Heq'|]; subst.
  destruct (VisibleFields_rel _ _ Hfs) as (vFields & vFields' & HvF & HvF' & Hall).
  change (VisibleFields (TypeOf (VStruct vs)) = Ok vFields) in HvF.
  change (VisibleFields (TypeOf (VStruct vs')) = Ok vFields') in HvF'.
  cbn [obind]. rewrite HvF, HvF'. cbn [obind].
  apply fields_loop_pairs. eapply Forall2_impl_elem; [exact Hall|].
  intros tf tf' Htf Hf.
  apply (fields_step_rel _ _ _ _ vFields); [exact IH|done|done|by right|done].
Qed.

(** [fields] returns the same for two records that differ in the
    annotations of record components. *)
Lemma fields_tags_differ rv rv' names :
  tags_differ rv rv' -> fields (Some rv) names = fields (Some rv') names.
Proof.
  intros H.
  rewrite (fields_fuel_fields
             (Nat.max (fuel_for (Some rv)) (fuel_for (Some rv'))) (Some rv))
    by (apply fields_fuel_enough; lia).
  rewrite (fields_fuel_fields
             (Nat.max (fuel_for (Some rv)) (fuel_for (Some rv'))) (Some rv'))
    by (apply fields_fuel_enough; lia).
  apply fields_fuel_rel. right. by eexists _, _.
Qed.

Lemma record_of_visible v rv vFields :
  valueOf v = Ok (Some rv) ->
  VisibleFields (TypeOf rv) = Ok vFields ->
  record v rv.
Proof. intros Hv HvF. split; [done|]. simpl. by destruct (TypeOf rv). Qed.

(** A leaf that is not ignored has its descriptor in the output. *)
Lemma leaf_block_emitted v rv vFields tf rf names out tags :
  valueOf v = Ok (Some rv) ->
  VisibleFields (TypeOf rv) = Ok vFields -> tf ∈ vFields ->
  IsExported tf = true -> component rv tf = Ok rf ->
  Value_Kind (Indirect rf) <> Struct ->
  fields v names = Ok out ->
  parseTags (Get (Tag tf) "form") = (Some tags, false) ->
  applyTags (default_field names tf rf) tags ∈ out.
Proof.
  intros Hv HvF Htf Hex Hrf Hkind Hout Htags.
  pose proof (record_of_visible _ _ _ Hv HvF) as Hrec.
  destruct (proj1 (fields_concat_blocks _ _ _ _ _ Hrec HvF) Hout)
    as (blocks & Hall & ->).
  destruct (Forall2_elem_concat _ _ _ _ Hall Htf) as (b & Hb & Hsub).
  apply Hsub.
  rewrite (block_functional _ _ _ _ _ Hb (block_leaf _ _ _ rf Hex Hrf Hkind)).
  unfold leaf. rewrite Htags. by left.
Qed.

(** What [fields] returns for a named nested record is part of the
    output. *)
Lemma nested_block_emitted v rv vFields tf rf names out :
  valueOf v = Ok (Some rv) ->
  VisibleFields (TypeOf rv) = Ok vFields -> tf ∈ vFields ->
  IsExported tf = true -> component rv tf = Ok rf ->
  Value_Kind (Indirect rf) = Struct -> Anonymous tf = false ->
  fields v names = Ok out ->
  exists b,
    fields (Value_Interface rf) (names ++ [reflect.Name tf]) = Ok b
    /\ forall d, d ∈ b -> d ∈ out.
Proof.
  intros Hv HvF Htf Hex Hrf Hkind Han Hout.
  pose proof (record_of_visible _ _ _ Hv HvF) as Hrec.
  destruct (proj1 (fields_concat_blocks _ _ _ _ _ Hrec HvF) Hout)
    as (blocks & Hall & ->).
  destruct (Forall2_elem_concat _ _ _ _ Hall Htf) as (b & Hb & Hsub).
  apply fields_step_block in Hb. unfold fields_step in Hb.
  rewrite Hex, Hrf in Hb. simpl in Hb. rewrite decide_True, Han in Hb by done.
  simpl in Hb. by exists b.
Qed.

(** C10: let [rv] and [rv'] be two records that are the same but for the
    annotations of components that are themselves records, at any depth,
    reached directly or promoted from an embedded record: one may carry the
    ignore marker ["-"] where the other carries nothing. Then [fields]
    returns the same for both, so these annotations are never consulted;
    and for every visible, exported, named component [tf] of [rv] whose
    value, one pointer peeled off, is a record, the descriptor of every
    leaf of that record that is not itself ignored is in what [fields]
    returns for [rv'], under the name of [tf] followed by the names from
    there to the leaf. *)
Theorem nested_record_annotation_unused rv rv' names :
  tags_differ rv rv' ->
  fields (Some rv) names = fields (Some rv') names
  /\ forall vFields tf rf path tf' rf' tags' out,
       VisibleFields (TypeOf rv) = Ok vFields -> tf ∈ vFields ->
       IsExported tf = true -> Anonymous tf = false ->
       component rv tf = Ok rf -> Value_Kind (Indirect rf) = Struct ->
       leaf_path (Value_Interface rf) path tf' rf' ->
       parseTags (Get (Tag tf') "form") = (Some tags', false) ->
       fields (Some rv') names = Ok out ->
       exists prefix,
         reflect.Name tf :: path = prefix ++ [reflect.Name tf']
         /\ applyTags (default_field (names ++ prefix) tf' rf') tags' ∈ out.
Proof.
  intros Hrel. pose proof (fields_tags_differ rv rv' names Hrel) as Heq.
  split; [done|].
  intros vFields tf rf path tf' rf' tags' out HvF Htf Hex Han Hrf Hk Hpath Htags Hout.
  rewrite <- Heq in Hout.
  assert (valueOf (Some rv) = Ok (Some rv)) as Hv.
  { destruct (TypeOf rv) as [| | | | |fs] eqn:Hty; try done.
    by destruct (TypeOf_struct _ _ Hty) as (vs & -> & _). }
  destruct (nested_block_emitted _ _ _ _ _ _ _ Hv HvF Htf Hex Hrf Hk Han Hout)
    as (b & Hb & Hsub).
  cut (exists prefix,
          path = prefix ++ [reflect.Name tf']
          /\ applyTags (default_field ((names ++ [reflect.Name tf]) ++ prefix) tf' rf')
               tags' ∈ b).
  { intros (prefix & -> & Hin). exists (reflect.Name tf :: prefix).
    split; [done|]. apply Hsub. by rewrite <- (assoc_L (++)) in Hin. }
  clear Hsub Hout Heq Hv HvF Htf Hex Han Hrf Hk Hrel.
  generalize dependent b. generalize (names ++ [reflect.Name tf]).
  induction Hpath as [v0 rv0 vFields0 tf0 rf0 Hv0 HvF0 Htf0 Hex0 Hrf0 Hkind0
                     |v0 rv0 vFields0 tf0 rf0 path0 tf1 rf1 Hv0 HvF0 Htf0 Hex0 Hrf0
                        Hkind0 Han0 _ IH];
    intros names0 b Hb.
  - exists []. split; [done|]. rewrite app_nil_r.
    by eapply leaf_block_emitted.
  - destruct (nested_block_emitted _ _ _ _ _ _ _ Hv0 HvF0 Htf0 Hex0 Hrf0 Hkind0 Han0 Hb)
      as (b' & Hb' & Hsub).
    destruct (IH Htags _ _ Hb') as (prefix & -> & Hin).
    exists (reflect.Name tf0 :: prefix). split; [done|]. apply Hsub.
    by rewrite <- (assoc_L (++)) in Hin.
Qed.

End annotation_unused.

(** C10 on [struct { Inner }], its named record [Address] promoted from the
    embedded [Inner]: with the ignore marker on [Address], [fields] returns
    what it returns without, and the descriptor of [Address.Street1] is in
    it. *)
Lemma nested_record_annotation_unused_witness :
  fields (Some promoted_plain) [] = fields (Some promoted_ignored) []
  /\ exists prefix,
       "Address" :: ["Street1"] = prefix ++ ["Street1"]
       /\ applyTags
            (default_field ([] ++ prefix)
               (reflect.field_of (exported "Street1" "") reflect.TString [0])
               (reflect.VString "123 Test St")) ∅
          ∈ [ {| Name := "Address.Street1"; Label := "Street1";
                 Placeholder := "Street1"; Type_ := "text"; ID := "";
                 ReadOnly := false; Value := Some (reflect.VString "123 Test St");
                 Footer := ""; Class := "" |} ].
Proof.
  destruct (nested_record_annotation_unused promoted_plain promoted_ignored [])
    as [Heq Hemit].
  { apply tags_differ_VStruct. constructor; [|constructor].
    split; [reflexivity|]. split; [reflexivity|]. split; [reflexivity|].
    right. apply tags_differ_VStruct. constructor; [|constructor].
    split; [reflexivity|]. split; [reflexivity|]. split; [reflexivity|].
    right. apply tags_differ_VStruct. apply comp_rel_refl. }
  split; [exact Heq|].
  apply (Hemit
           [reflect.field_of (reflect.Decl "Inner" "" [] true)
              (reflect.TStruct [(exported "Address" "", t_address)]) [0];
            reflect.field_of (exported "Address" "") t_address [0; 0]]
           (reflect.field_of (exported "Address" "") t_address [0; 0])
           (reflect.VStruct [(exported "Street1" "", reflect.VString "123 Test St")])
           ["Street1"]
           (reflect.field_of (exported "Street1" "") reflect.TString [0])
           (reflect.VString "123 Test St") ∅).
  - vm_compute. reflexivity.
  - right. left.
  - reflexivity.
  - reflexivity.
  - reflexivity.
  - reflexivity.
  - eapply (leaf_path_here _
              (reflect.VStruct [(exported "Street1" "", reflect.VString "123 Test St")]) _
              (reflect.field_of (exported "Street1" "") reflect.TString [0])).
    + reflexivity.
    + vm_compute. reflexivity.
    + left.
    + reflexivity.
    + reflexivity.
    + discriminate.
  - vm_compute. reflexivity.
  - vm_compute. reflexivity.
Defined.

(** ** C4: when [fields] panics *)

Section panics.
Import reflect.

(** What is not record-shaped makes [fields] panic. *)
Lemma fields_not_record v names :
  (forall rv, ~ record v rv) -> exists msg, fields v names = Panic msg.
Proof.
  intros Hno. rewrite fields_unfold. unfold fields_body.
  destruct (valueOf v) as [[rv|]| |] eqn:Hv; simpl; eauto.
  - destruct rv; eauto. by destruct (Hno _ (conj Hv eq_refl)).
  - by destruct v as [[]|].
Qed.

Lemma record_nested rf :
  Value_Kind (Indirect rf) = Struct -> exists rv, record (Value_Interface rf) rv.
Proof.
  intros (rv & Hrv & _ & Hk)%valueOf_struct_like. by exists rv.
Qed.

Lemma fields_loop_outcome rec rv names vFields :
  Forall (fun tf =>
            (exists b, fields_step rec rv names tf = Ok b)
            \/ fields_step rec rv names tf = Panic nil_embedded
            \/ fields_step rec rv names tf = OutOfFuel) vFields ->
  forall ret,
    (exists out, fields_loop rec rv names vFields ret = Ok out)
    \/ fields_loop rec rv names vFields ret = Panic nil_embedded
    \/ fields_loop rec rv names vFields ret = OutOfFuel.
Proof.
  induction 1 as [|tf rest Htf _ IH]; intros ret; simpl; [eauto|].
  destruct Htf as [[b ->]|[-> | ->]]; simpl; eauto.
Qed.

(** On a record the only panic is the one of a nil embedded pointer. *)
Lemma fields_record_outcome v names rv :
  record v rv ->
  (exists out, fields v names = Ok out) \/ fields v names = Panic nil_embedded.
Proof.
  intros Hrec. pose proof (fields_terminates v names) as Hterm.
  cut (forall n v names rv, record v rv ->
         (exists out, fields_fuel n v names = Ok out)
         \/ fields_fuel n v names = Panic nil_embedded
         \/ fields_fuel n v names = OutOfFuel).
  { intros Hcut. destruct (Hcut (fuel_for v) v names rv Hrec) as [?|[?|?]]; auto.
    done. }
  clear. induction n as [|n IH]; intros v names rv Hrec; [by right; right|].
  simpl. rewrite (fields_record _ _ _ _ Hrec).
  destruct (VisibleFields (TypeOf rv)) as [vFields| |] eqn:HvF; simpl.
  - apply fields_loop_outcome, Forall_forall. intros tf Htf.
    unfold fields_step. destruct (negb (IsExported tf)); [eauto|].
    destruct (component_visible rv _ _ HvF Htf) as [(rf & -> & _)| ->];
      simpl; [|eauto].
    case_decide as Hk; [|eauto]. destruct (negb (Anonymous tf)); [|eauto].
    destruct (record_nested _ Hk) as [rv' Hrec']. by eapply IH.
  - destruct (record_struct _ _ Hrec) as [vs ->]. by simpl in HvF.
  - eauto.
Qed.

(** C4, on the code: [struct { *Address }{}], with
    [type Address struct { City string }], is record-shaped, and [fields]
    panics on it: the promoted field [City] lies behind the nil embedded
    pointer, and [FieldByIndex] panics on the way to it. *)
Theorem nil_embedded_pointer_panics :
  record (Some embedded_nil) embedded_nil
  /\ fields (Some embedded_nil) []
     = Panic "reflect: indirection through nil pointer to embedded struct".
Proof. split; [by split|by vm_compute]. Qed.

End panics.

(** ** C5: a record, a pointer to it, and the nil pointer of its type *)

Section handles.
Import reflect.

Lemma fields_valueOf v v' names :
  valueOf v = valueOf v' -> fields v names = fields v' names.
Proof. intros H. rewrite !fields_unfold. unfold fields_body. by rewrite H. Qed.

(** [fields(&v)] is [fields(v)] for a struct [v]. *)
Lemma fields_pointer vs names :
  fields (Some (VPtr (VStruct vs))) names = fields (Some (VStruct vs)) names.
Proof. by apply fields_valueOf. Qed.

(** [fields] of the nil pointer to a struct type is [fields] of the zero
    value of that type. *)
Lemma fields_nil fs names :
  fields (Some (VNil (TStruct fs))) names = fields (Some (Zero (TStruct fs))) names.
Proof. by apply fields_valueOf. Qed.

Lemma with_tag_same tags key set f f' :
  (forall v g g', same_but_Value g g' -> same_but_Value (set v g) (set v g')) ->
  same_but_Value f f' ->
  same_but_Value (with_tag tags key set f) (with_tag tags key set f').
Proof. intros Hset Hf. unfold with_tag. destruct (tags !! key); auto. Qed.

Lemma applyTags_same f f' tags :
  same_but_Value f f' -> same_but_Value (applyTags f tags) (applyTags f' tags).
Proof.
  intros H. unfold applyTags.
  repeat (apply with_tag_same;
          [intros ??? (?&?&?&?&?&?&?&?); by repeat split|]).
  done.
Qed.

Lemma leaf_same names tf rf rf' :
  Forall2 same_but_Value (leaf names tf rf) (leaf names tf rf').
Proof.
  unfold leaf. destruct (parseTags _) as [tags []]; constructor; [|constructor].
  apply applyTags_same. by repeat split.
Qed.

Lemma Forall2_same_index {A B C} (R1 : A -> B -> Prop) (R2 : A -> C -> Prop)
    (S : B -> C -> Prop) l bs cs :
  Forall2 R1 l bs -> Forall2 R2 l cs ->
  (forall a b c, a ∈ l -> R1 a b -> R2 a c -> S b c) ->
  Forall2 S bs cs.
Proof.
  intros H1. revert cs. induction H1 as [|a b l bs Hab _ IH]; intros cs H2 HS.
  - apply Forall2_nil_inv_l in H2 as ->. constructor.
  - apply Forall2_cons_inv_l in H2 as (c & cs' & Hac & H2 & ->).
    constructor; [apply (HS a); [by left|done..]|].
    apply IH; [done|]. intros a' b' c' Ha'. apply HS. by right.
Qed.

Lemma Forall2_concat_blocks {B C} (S : B -> C -> Prop) bs cs :
  Forall2 (Forall2 S) bs cs -> Forall2 S (concat bs) (concat cs).
Proof.
  induction 1 as [|b c bs cs Hbc _ IH]; [constructor|]. simpl.
  by apply Forall2_app.
Qed.

Lemma record_functional v rv rv' : record v rv -> record v rv' -> rv = rv'.
Proof. intros [H _] [H' _]. congruence. Qed.

(** Two records of one type, if [fields] returns for both, give
    descriptors that agree on everything but Value. *)
Lemma fields_same_type v names out :
  fields v names = Ok out ->
  forall v' rv rv' out',
    record v rv -> record v' rv' -> TypeOf rv = TypeOf rv' ->
    fields v' names = Ok out' ->
    Forall2 same_but_Value out out'.
Proof.
  revert v names out.
  apply (fields_Ok_ind (fun v names out => forall v' rv rv' out', _ -> _ -> _ -> _ -> _)).
  intros v names rv0 vFields blocks Hrec0 HvF Hall v' rv rv' out' Hrec Hrec' Hty Hout'.
  rewrite (record_functional _ _ _ Hrec0 Hrec) in *. clear Hrec0 rv0.
  pose proof HvF as HvF'. rewrite Hty in HvF'.
  apply (fields_blocks _ _ _ _ _ Hrec' HvF') in Hout' as (blocks' & Hall' & ->).
  apply Forall2_concat_blocks.
  eapply Forall2_same_index; [exact Hall|exact Hall'|].
  intros tf b b' Htf [Hb IH] Hb'. unfold fields_step in Hb, Hb'.
  destruct (IsExported tf); simpl in *; [|simplify_eq; constructor].
  destruct (component rv tf) as [rf| |] eqn:Hrf; simpl in *; try done.
  destruct (component rv' tf) as [rf'| |] eqn:Hrf'; simpl in *; try done.
  pose proof (component_kind _ _ _ _ HvF Htf Hrf) as Hk.
  pose proof (component_kind _ _ _ _ HvF' Htf Hrf') as Hk'.
  destruct (struct_of (Type_ tf)) as [gs|].
  - destruct Hk as (Hs & rv1 & Hrec1 & Hty1), Hk' as (Hs' & rv1' & Hrec1' & Hty1').
    rewrite decide_True in Hb by done. rewrite decide_True in Hb' by done.
    destruct (Anonymous tf) eqn:Han; simpl in *; [simplify_eq; constructor|].
    eapply (IH rf eq_refl eq_refl Hs eq_refl); [exact Hrec1|exact Hrec1'|congruence|done].
  - rewrite decide_False in Hb by done. rewrite decide_False in Hb' by done.
    simplify_eq. apply leaf_same.
Qed.

(** C5, on the code: for [v] the record [struct { *Address }{&Address{}}],
    [fields(v)] and [fields(&v)] return the descriptor of [City], and
    [fields] of the nil pointer of the type of [v] panics, the embedded
    pointer of the zero value being nil. *)
Theorem null_handle_with_embedded_pointer :
  fields (Some embedded_pointer) [] = Ok [text_field "City" (Some (VString ""))]
  /\ fields (Some (VPtr embedded_pointer)) [] = Ok [text_field "City" (Some (VString ""))]
  /\ fields (Some (VNil (TypeOf embedded_pointer))) []
     = Panic "reflect: indirection through nil pointer to embedded struct".
Proof. repeat split; by vm_compute. Qed.

End handles.

(** * Further properties of reflect.go *)

(** ** White space and separators in strings *)

Section trimming.
Import strings.

#[local] Arguments String.append : simpl nomatch.

Lemma append_assoc_s (a b c : string) : (a +:+ b) +:+ c = a +:+ (b +:+ c).
Proof. induction a as [|x a IH]; simpl; [done|by f_equal]. Qed.

Lemma append_nil_r_s (a : string) : a +:+ "" = a.
Proof. induction a as [|x a IH]; simpl; [done|by f_equal]. Qed.

Lemma contains_app a b c :
  contains (a +:+ b) c = contains a c || contains b c.
Proof.
  induction a as [|x a IH]; simpl; [done|]. rewrite IH. by rewrite orb_assoc.
Qed.

Lemma rev_onto_app s acc : rev_onto s acc = rev s +:+ acc.
Proof.
  unfold rev. revert acc. induction s as [|x s IH]; intros acc; simpl; [done|].
  rewrite (IH (String x acc)), (IH (String x "")), append_assoc_s. done.
Qed.

Lemma rev_cons x s : rev (String x s) = rev s +:+ String x "".
Proof. unfold rev. simpl. by rewrite rev_onto_app. Qed.

Lemma rev_app a b : rev (a +:+ b) = rev b +:+ rev a.
Proof.
  induction a as [|x a IH]; simpl.
  - by rewrite append_nil_r_s.
  - by rewrite !rev_cons, IH, append_assoc_s.
Qed.

Lemma rev_rev s : rev (rev s) = s.
Proof.
  induction s as [|x s IH]; [done|]. by rewrite rev_cons, rev_app, IH.
Qed.

(** [TrimLeftSpace] cuts a prefix off, and what is left does not begin with
    white space. *)
Lemma TrimLeftSpace_spec s :
  (exists pre, s = pre +:+ TrimLeftSpace s)
  /\ leading_space (TrimLeftSpace s) = false.
Proof.
  remember (String.length s) as n eqn:Hn.
  assert (String.length s <= n) as Hle by lia. clear Hn. revert s Hle.
  induction n as [|n IH]; intros s Hle.
  { destruct s; [|simpl in Hle; lia]. split; [by exists ""|done]. }
  destruct s as [|a r1]; [split; [by exists ""|done]|].
  simpl in Hle. simpl TrimLeftSpace.
  destruct (asciiSpace a) eqn:Ha.
  { destruct (IH r1) as [[pre Hpre] Hl]; [lia|]. split; [|done].
    exists (String a pre). simpl. by rewrite <- Hpre. }
  destruct r1 as [|b r2]; [split; [by exists ""|by simpl; rewrite Ha]|].
  simpl in Hle.
  destruct (space2 a b) eqn:Hab.
  { destruct (IH r2) as [[pre Hpre] Hl]; [lia|]. split; [|done].
    exists (String a (String b pre)). simpl. by rewrite <- Hpre. }
  destruct r2 as [|c r3]; [split; [by exists ""|by simpl; rewrite Ha, Hab]|].
  simpl in Hle.
  destruct (space3 a b c) eqn:Habc.
  { destruct (IH r3) as [[pre Hpre] Hl]; [lia|]. split; [|done].
    exists (String a (String b (String c pre))). simpl. by rewrite <- Hpre. }
  split; [by exists ""|by simpl; rewrite Ha, Hab, Habc].
Qed.

Lemma TrimLeftSpace_rev_spec s :
  (exists pre, s = pre +:+ TrimLeftSpace_rev s)
  /\ leading_space_rev (TrimLeftSpace_rev s) = false.
Proof.
  remember (String.length s) as n eqn:Hn.
  assert (String.length s <= n) as Hle by lia. clear Hn. revert s Hle.
  induction n as [|n IH]; intros s Hle.
  { destruct s; [|simpl in Hle; lia]. split; [by exists ""|done]. }
  destruct s as [|c r1]; [split; [by exists ""|done]|].
  simpl in Hle. simpl TrimLeftSpace_rev.
  destruct (asciiSpace c) eqn:Hc.
  { destruct (IH r1) as [[pre Hpre] Hl]; [lia|]. split; [|done].
    exists (String c pre). simpl. by rewrite <- Hpre. }
  destruct r1 as [|b r2]; [split; [by exists ""|by simpl; rewrite Hc]|].
  simpl in Hle.
  destruct (space2 b c) eqn:Hbc.
  { destruct (IH r2) as [[pre Hpre] Hl]; [lia|]. split; [|done].
    exists (String c (String b pre)). simpl. by rewrite <- Hpre. }
  destruct r2 as [|a r3]; [split; [by exists ""|by simpl; rewrite Hc, Hbc]|].
  simpl in Hle.
  destruct (space3 a b c) eqn:Habc.
  { destruct (IH r3) as [[pre Hpre] Hl]; [lia|]. split; [|done].
    exists (String c (String b (String a pre))). simpl. by rewrite <- Hpre. }
  split; [by exists ""|by simpl; rewrite Hc, Hbc, Habc].
Qed.

Lemma TrimLeftSpace_fixed s : leading_space s = false -> TrimLeftSpace s = s.
Proof.
  destruct s as [|a [|b [|c r]]]; simpl; try done.
  - by intros ->.
  - intros [-> ->]%orb_false_elim. done.
  - intros [[-> ->]%orb_false_elim ->]%orb_false_elim. done.
Qed.

Lemma TrimLeftSpace_rev_fixed s :
  leading_space_rev s = false -> TrimLeftSpace_rev s = s.
Proof.
  destruct s as [|a [|b [|c r]]]; simpl; try done.
  - by intros ->.
  - intros [-> ->]%orb_false_elim. done.
  - intros [[-> ->]%orb_false_elim ->]%orb_false_elim. done.
Qed.

(** A prefix of a string that does not begin with white space does not
    either. *)
Lemma leading_space_prefix a b :
  leading_space (a +:+ b) = false -> leading_space a = false.
Proof.
  destruct a as [|x [|y [|z r]]]; simpl; try done.
  - destruct b as [|y [|z r]]; simpl; try done.
    + by intros [? _]%orb_false_elim.
    + by intros [[? _]%orb_false_elim _]%orb_false_elim.
  - destruct b as [|z r]; simpl; try done.
    by intros [? _]%orb_false_elim.
Qed.

(** [TrimSpace s] lies inside [s]. *)
Lemma TrimSpace_infix s :
  exists pre post, s = pre +:+ TrimSpace s +:+ post.
Proof.
  unfold TrimSpace, TrimRightSpace.
  destruct (TrimLeftSpace_spec s) as [[pre Hpre] _].
  destruct (TrimLeftSpace_rev_spec (rev (TrimLeftSpace s))) as [[post Hpost] _].
  exists pre, (rev post). rewrite Hpre at 1. f_equal.
  rewrite <- rev_app, <- Hpost. by rewrite rev_rev.
Qed.

Lemma TrimSpace_contains s c :
  contains (TrimSpace s) c = true -> contains s c = true.
Proof.
  intros H. destruct (TrimSpace_infix s) as (pre & post & Hs).
  rewrite Hs, !contains_app, H. by rewrite orb_true_r.
Qed.

Lemma TrimSpace_idempotent s : TrimSpace (TrimSpace s) = TrimSpace s.
Proof.
  unfold TrimSpace at 2 3. unfold TrimRightSpace.
  destruct (TrimLeftSpace_spec s) as [_ Hlead].
  set (t := TrimLeftSpace s) in *.
  destruct (TrimLeftSpace_rev_spec (rev t)) as [[pre Hpre] Hrev].
  set (w := TrimLeftSpace_rev (rev t)) in *.
  assert (t = rev w +:+ rev pre) as Ht.
  { by rewrite <- rev_app, <- Hpre, rev_rev. }
  unfold TrimSpace, TrimRightSpace.
  rewrite (TrimLeftSpace_fixed (rev w)).
  - by rewrite rev_rev, (TrimLeftSpace_rev_fixed w).
  - apply (leading_space_prefix _ (rev pre)). by rewrite <- Ht.
Qed.

Lemma Split_piece_no_sep s sep p :
  p ∈ Split s sep -> contains p sep = false.
Proof.
  revert p. induction s as [|x s IH]; intros p; simpl.
  - by intros ->%list_elem_of_singleton.
  - destruct (Ascii.eqb x sep) eqn:Hx.
    + intros [->|Hp]%elem_of_cons; [done|by apply IH].
    + destruct (Split s sep) as [|h t] eqn:Hs.
      * intros ->%list_elem_of_singleton. simpl. rewrite Hx. simpl.
        by apply Split_nonempty in Hs.
      * intros [->|Hp]%elem_of_cons.
        -- simpl. rewrite Hx. simpl. apply IH. by left.
        -- apply IH. by right.
Qed.

Lemma Split_piece_contains s sep p c :
  p ∈ Split s sep -> contains p c = true -> contains s c = true.
Proof.
  revert p. induction s as [|x s IH]; intros p; simpl.
  - by intros ->%list_elem_of_singleton.
  - destruct (Ascii.eqb x sep) eqn:Hx.
    + intros [->|Hp]%elem_of_cons; [done|].
      intros Hc. rewrite (IH _ Hp Hc). by rewrite orb_true_r.
    + destruct (Split s sep) as [|h t] eqn:Hs.
      * by apply Split_nonempty in Hs.
      * intros [->|Hp]%elem_of_cons.
        -- simpl. destruct (Ascii.eqb x c); [done|]. simpl.
           intros Hc. apply (IH h); [by left|done].
        -- intros Hc. rewrite (IH p); [by rewrite orb_true_r|by right|done].
Qed.

End trimming.

(** ** The map [parseTags] returns *)

Section parsed_map.
Import strings.

Lemma parseTags_loop_pair tag rest ret :
  parseTags_loop (tag :: rest) ret
  = match segment_pair tag with
    | Some (k, v) => parseTags_loop rest (<[k := v]> ret)
    | None => if decide (tag = "-") then (None, true) else parseTags_loop rest ret
    end.
Proof.
  unfold segment_pair. simpl.
  destruct (Split_cases tag "=") as [[_ ->]|[_ (k & v & more & ->)]]; done.
Qed.

Lemma parseTags_loop_Forall (P : string -> string -> Prop) split :
  (forall tag k v, tag ∈ split -> segment_pair tag = Some (k, v) -> P k v) ->
  forall ret m,
    map_Forall P ret ->
    parseTags_loop split ret = (Some m, false) ->
    map_Forall P m.
Proof.
  induction split as [|tag rest IH]; intros HP ret m Hret.
  { by intros [= <-]. }
  rewrite parseTags_loop_pair.
  destruct (segment_pair tag) as [[k v]|] eqn:Hkv.
  - apply IH; [intros ??? Hin; apply HP; by right|].
    apply map_Forall_insert_2; [|done]. apply (HP tag); [by left|done].
  - case_decide; [done|]. apply IH; [|done]. intros ??? Hin. apply HP. by right.
Qed.

Lemma parseTags_Forall (P : string -> string -> Prop) tags m :
  (forall tag k v,
      tag ∈ Split (TrimSpace tags) ";" -> segment_pair tag = Some (k, v) -> P k v) ->
  parseTags tags = (Some m, false) ->
  map_Forall P m.
Proof.
  intros HP. rewrite parseTags_segments.
  apply parseTags_loop_Forall; [done|]. apply map_Forall_empty.
Qed.

(** What a stored pair is made of: two pieces of the segment, trimmed. *)
Lemma segment_pair_pieces tag k v :
  segment_pair tag = Some (k, v) ->
  exists k0 v0, k = TrimSpace k0 /\ v = TrimSpace v0
                /\ k0 ∈ Split tag "=" /\ v0 ∈ Split tag "=".
Proof.
  unfold segment_pair. destruct (Split tag "=") as [|k0 [|v0 more]]; try done.
  intros [= <- <-]. exists k0, v0. repeat split; [by left|by right; left].
Qed.

Lemma piece_no_separator s tag p c :
  tag ∈ Split s ";" -> p ∈ Split tag "=" ->
  c = ";"%char \/ c = "="%char ->
  contains (TrimSpace p) c = false.
Proof.
  intros Htag Hp Hc. destruct (contains (TrimSpace p) c) eqn:Hcontains; [|done].
  apply TrimSpace_contains in Hcontains. destruct Hc as [->| ->].
  - apply (Split_piece_contains _ _ _ _ Hp) in Hcontains.
    by rewrite (Split_piece_no_sep _ _ _ Htag) in Hcontains.
  - by rewrite (Split_piece_no_sep _ _ _ Hp) in Hcontains.
Qed.

(** X1: no key and no value of the map [parseTags] returns holds a [";"] or
    an ["="]. *)
Theorem parseTags_no_separator tags m k v :
  parseTags tags = (Some m, false) ->
  m !! k = Some v ->
  contains k ";" = false /\ contains k "=" = false
  /\ contains v ";" = false /\ contains v "=" = false.
Proof.
  intros Hparse Hk. revert k v Hk.
  apply (parseTags_Forall _ tags m); [|done].
  intros tag k v Htag (k0 & v0 & -> & -> & Hk0 & Hv0)%segment_pair_pieces.
  repeat split; eapply piece_no_separator; eauto.
Qed.

(** X1 on the annotation ["footer=a=b;id=x"]. *)
Lemma parseTags_no_separator_witness :
  contains "footer" ";" = false /\ contains "footer" "=" = false
  /\ contains "a" ";" = false /\ contains "a" "=" = false.
Proof.
  refine (parseTags_no_separator "footer=a=b;id=x"
            (<["id" := "x"]> (<["footer" := "a"]> ∅) : gmap string string)
            "footer" "a" _ _); vm_compute; reflexivity.
Defined.

(** X2: the keys and the values of the map [parseTags] returns are trimmed:
    [TrimSpace] leaves them as they are. *)
Theorem parseTags_trimmed tags m k v :
  parseTags tags = (Some m, false) ->
  m !! k = Some v ->
  TrimSpace k = k /\ TrimSpace v = v.
Proof.
  intros Hparse Hk. revert k v Hk.
  apply (parseTags_Forall _ tags m); [|done].
  intros tag k v Htag (k0 & v0 & -> & -> & _)%segment_pair_pieces.
  by rewrite !TrimSpace_idempotent.
Qed.

(** X2 on the annotation ["  label =  Full Name ; id = name "]. *)
Lemma parseTags_trimmed_witness :
  TrimSpace "label" = "label" /\ TrimSpace "Full Name" = "Full Name".
Proof.
  refine (parseTags_trimmed "  label =  Full Name ; id = name "
            (<["id" := "name"]> (<["label" := "Full Name"]> ∅) : gmap string string)
            "label" "Full Name" _ _); vm_compute; reflexivity.
Defined.

Lemma parseTags_loop_lookup_other split k :
  (forall t v', t ∈ split -> segment_pair t <> Some (k, v')) ->
  forall ret m,
    parseTags_loop split ret = (Some m, false) -> m !! k = ret !! k.
Proof.
  induction split as [|tag rest IH]; intros Hno ret m.
  { by intros [= <-]. }
  rewrite parseTags_loop_pair.
  destruct (segment_pair tag) as [[k' v']|] eqn:Hkv.
  - intros Hm. rewrite (IH (fun t v'' Hin => Hno t v'' (proj2 (elem_of_cons _ _ _) (or_intror Hin))) _ _ Hm).
    apply lookup_insert_ne. intros ->. by apply (Hno tag v'); [left|].
  - case_decide; [done|].
    apply IH. intros t v'' Hin. apply Hno. by right.
Qed.

Lemma parseTags_loop_last split :
  forall ret m pre tag post k v,
    parseTags_loop split ret = (Some m, false) ->
    split = pre ++ tag :: post ->
    segment_pair tag = Some (k, v) ->
    (forall t v', t ∈ post -> segment_pair t <> Some (k, v')) ->
    m !! k = Some v.
Proof.
  induction split as [|tag' rest IH]; intros ret m pre tag post k v Hm Hsplit Hkv Hno.
  { by destruct pre. }
  rewrite parseTags_loop_pair in Hm.
  destruct pre as [|p pre]; simplify_eq/=.
  - rewrite Hkv in Hm.
    rewrite (parseTags_loop_lookup_other _ _ Hno _ _ Hm). apply lookup_insert_eq.
  - destruct (segment_pair p) as [[k' v']|].
    + by eapply IH.
    + case_decide; [done|]. by eapply IH.
Qed.

(** X3: when several segments give a value to one key the last one wins:
    the map [parseTags] returns holds for [k] the value of the last segment
    that has the key [k], and nothing for a key no segment has. *)
Theorem parseTags_last_wins tags m k :
  parseTags tags = (Some m, false) ->
  (forall pre tag post v,
      Split (TrimSpace tags) ";" = pre ++ tag :: post ->
      segment_pair tag = Some (k, v) ->
      (forall t v', t ∈ post -> segment_pair t <> Some (k, v')) ->
      m !! k = Some v)
  /\ ((forall t v', t ∈ Split (TrimSpace tags) ";" -> segment_pair t <> Some (k, v')) ->
      m !! k = None).
Proof.
  rewrite parseTags_segments. intros Hm. split.
  - intros pre tag post v Hsplit Hkv Hno. by eapply parseTags_loop_last.
  - intros Hno. by rewrite (parseTags_loop_lookup_other _ _ Hno _ _ Hm).
Qed.

(** X3 on the annotation ["id=a;class=c;id=b"]. *)
Lemma parseTags_last_wins_witness :
  exists m : gmap string string,
    parseTags "id=a;class=c;id=b" = (Some m, false) /\ m !! "id" = Some "b".
Proof.
  exists (<["id" := "b"]> (<["class" := "c"]> (<["id" := "a"]> ∅))).
  assert (parseTags "id=a;class=c;id=b"
          = (Some (<["id" := "b"]> (<["class" := "c"]> (<["id" := "a"]> ∅))), false))
    as Hm by (vm_compute; reflexivity).
  split; [exact Hm|].
  destruct (parseTags_last_wins _ _ "id" Hm) as [Hlast _].
  apply (Hlast ["id=a"; "class=c"] "id=b" [] "b").
  - vm_compute. reflexivity.
  - vm_compute. reflexivity.
  - intros t v' Hin. inversion Hin.
Defined.

End parsed_map.

(** ** What [applyTags] reads and writes *)

(** X4: [applyTags] reads the eight keys [name], [label], [placeholder],
    [type], [id], [footer], [class] and [readonly] and no other: two maps
    that agree on these give the same descriptor. *)
Theorem applyTags_recognized_keys f (tags tags' : gmap string string) :
  (forall key, key ∈ recognized_keys -> tags !! key = tags' !! key) ->
  applyTags f tags = applyTags f tags'.
Proof.
  intros H. unfold applyTags, with_tag.
  rewrite !H by (unfold recognized_keys; set_solver). done.
Qed.

(** X4 on a map with the unknown key [foo]. *)
Lemma applyTags_recognized_keys_witness :
  applyTags (text_field "Name" None) (<["foo" := "bar"]> (<["id" := "x"]> ∅))
  = applyTags (text_field "Name" None) (<["id" := "x"]> ∅).
Proof.
  apply applyTags_recognized_keys. intros key Hkey.
  apply lookup_insert_ne. intros <-.
  unfold recognized_keys in Hkey.
  repeat (apply elem_of_cons in Hkey as [Hkey|Hkey]; [discriminate|]).
  inversion Hkey.
Defined.

(** X5: [applyTags] never touches Value, and each of Name, Type, ID, Footer
    and Class is the value of its key if the map has it and else stays;
    ReadOnly, if the map has [readonly], is true for the value ["true"]
    alone and false for every other value, whatever it was before. *)
Theorem applyTags_attributes f (tags : gmap string string) :
  Value (applyTags f tags) = Value f
  /\ Name (applyTags f tags) = default (Name f) (tags !! "name")
  /\ Type_ (applyTags f tags) = default (Type_ f) (tags !! "type")
  /\ ID (applyTags f tags) = default (ID f) (tags !! "id")
  /\ Footer (applyTags f tags) = default (Footer f) (tags !! "footer")
  /\ Class (applyTags f tags) = default (Class f) (tags !! "class")
  /\ ReadOnly (applyTags f tags)
     = match tags !! "readonly" with
       | Some v => bool_decide (v = "true")
       | None => ReadOnly f
       end.
Proof.
  unfold applyTags, with_tag.
  destruct (tags !! "name"), (tags !! "label"), (tags !! "placeholder"),
    (tags !! "type"), (tags !! "id"), (tags !! "footer"), (tags !! "class"),
    (tags !! "readonly"); done.
Qed.

(** ** What [valueOf] returns *)

Section underlying_value.
Import reflect.

Lemma valueOf_loop_kind :
  forall x,
    Value_Kind (valueOf_loop x) <> Pointer
    /\ Value_Kind (valueOf_loop x) <> Interface.
Proof.
  fix IH 1. intros [b|i|s|[y|]|e|y|vs]; simpl; try (split; discriminate).
  - apply IH.
  - apply IH.
Qed.

Lemma valueOf_loop_fixed x rv :
  valueOf_loop x = Some rv -> valueOf (Some rv) = Ok (Some rv).
Proof.
  intros H. destruct (valueOf_loop_kind x) as [Hp Hi]. rewrite H in Hp, Hi.
  by destruct rv.
Qed.

Lemma valueOf_Some x : exists x', valueOf (Some x) = Ok (valueOf_loop x').
Proof.
  destruct x; by eexists.
Qed.

Lemma valueOf_loop_pointers n x :
  valueOf_loop (Nat.iter n VPtr x) = valueOf_loop x.
Proof. induction n as [|n IH]; [done|]. simpl. exact IH. Qed.

Lemma valueOf_pointers n x :
  valueOf (Some (Nat.iter (S n) VPtr x)) = Ok (valueOf_loop x).
Proof. simpl. by rewrite valueOf_loop_pointers. Qed.

(** X6: [valueOf] panics on the nil interface and on nothing else, and the
    Value it returns is never of kind Pointer or Interface. *)
Theorem valueOf_outcome :
  valueOf None = Panic "reflect: call of reflect.Value.Type on zero Value"
  /\ forall x, exists rv,
       valueOf (Some x) = Ok rv
       /\ Value_Kind rv <> Pointer /\ Value_Kind rv <> Interface.
Proof.
  split; [done|]. intros x. destruct (valueOf_Some x) as [x' ->].
  eexists. split; [done|]. apply valueOf_loop_kind.
Qed.

(** X7: what [valueOf] returns is a value that [valueOf] leaves as it is,
    and [fields] of it is [fields] of the handle it was reached from. *)
Theorem fields_of_underlying v rv names :
  valueOf v = Ok (Some rv) ->
  valueOf (Some rv) = Ok (Some rv)
  /\ fields (Some rv) names = fields v names.
Proof.
  intros Hv.
  assert (valueOf (Some rv) = Ok (Some rv)) as Hrv.
  { destruct v as [x|]; [|done]. destruct (valueOf_Some x) as [x' Hx'].
    rewrite Hx' in Hv. apply Ok_inj in Hv. by eapply valueOf_loop_fixed. }
  split; [done|]. apply fields_valueOf. by rewrite Hrv, Hv.
Qed.

(** X7 on a pointer to the input of the test "nested with values". *)
Lemma fields_of_underlying_witness :
  valueOf (Some nested_with_values) = Ok (Some nested_with_values)
  /\ fields (Some nested_with_values) []
     = fields (Some (VPtr nested_with_values)) [].
Proof.
  apply (fields_of_underlying (Some (VPtr nested_with_values))). reflexivity.
Defined.

(** X8: let [x] be a value that can be passed to [fields] as it is, so not
    a variable of interface type ([Some x] stands for the call [fields(x)]
    only then), and not a nil pointer. Any number of pointers in front of
    [x] changes nothing: [fields(&&x)] is [fields(x)]. *)
Theorem fields_pointers n x names :
  (forall d, x <> VInterface d) ->
  (forall e, x <> VNil e) ->
  fields (Some (Nat.iter n VPtr x)) names = fields (Some x) names.
Proof.
  intros _ Hx. apply fields_valueOf. destruct n as [|n]; [done|].
  rewrite valueOf_pointers. destruct x; try done. by destruct (Hx elem).
Qed.

(** X8 on two pointers in front of the input of the test "nested with
    values". *)
Lemma fields_pointers_witness :
  fields (Some (VPtr (VPtr nested_with_values))) []
  = fields (Some nested_with_values) [].
Proof.
  apply (fields_pointers 2 nested_with_values []).
  - intros d. discriminate.
  - intros e. discriminate.
Defined.

(** X9: a nil pointer is replaced by the zero value of its element only
    when it is the handle itself; behind one pointer or more it makes
    [fields] panic, whatever it would point to. *)
Theorem fields_pointer_to_nil n e names :
  fields (Some (Nat.iter (S n) VPtr (VNil e))) names
  = Panic "invalid value; only structs are supported".
Proof. rewrite fields_unfold. unfold fields_body. by rewrite valueOf_pointers. Qed.

End underlying_value.

(** ** When [fields] returns and when it panics *)

Section outcomes.
Import reflect.

Implicit Types rec : any -> list string -> outcome (list field).

(** X10: when [fields] returns, [valueOf] has reached a struct; and when
    it panics, it does so in one of three ways: on the nil interface, in
    [rv.Type()]; on a value that does not lead to a struct, with its own
    message; and on a struct, with the panic of [FieldByIndex] at a nil
    embedded pointer. *)
Theorem fields_panics v names :
  (forall out, fields v names = Ok out -> exists rv, record v rv)
  /\ (forall msg, fields v names = Panic msg ->
        (v = None /\ msg = "reflect: call of reflect.Value.Type on zero Value")
        \/ (v <> None /\ (forall rv, ~ record v rv)
            /\ msg = "invalid value; only structs are supported")
        \/ ((exists rv, record v rv) /\ msg = nil_embedded)).
Proof.
  split; [intros out Hf; by eapply fields_Ok_record|]. intros msg Hf.
  destruct v as [x|].
  - destruct (valueOf_Some x) as [x' Hx'].
    destruct (valueOf_loop x') as [[b|i|s|d|e|y|vs]|] eqn:Hloop.
    7: { right. right.
         assert (record (Some x) (VStruct vs)) as Hrec by (by split; [rewrite Hx'|]).
         split; [by eexists|].
         destruct (fields_record_outcome _ names _ Hrec) as [[out Hout]|Hp];
           congruence. }
    all: right; left; split; [done|]; split;
      [intros rv [Hv Hk]; rewrite Hx' in Hv; apply Ok_inj in Hv;
       by simplify_eq
      |rewrite fields_unfold in Hf; unfold fields_body in Hf;
       rewrite Hx' in Hf; simpl in Hf; congruence].
  - left. split; [done|]. rewrite fields_unfold in Hf. unfold fields_body in Hf.
    simpl in Hf. congruence.
Qed.

(** X10 on the input of the test "nested with values", for which [fields]
    returns, and on the record of C4, for which it panics. *)
Lemma fields_panics_witness :
  (exists rv, record (Some nested_with_values) rv)
  /\ ((Some embedded_nil = None
       /\ nil_embedded = "reflect: call of reflect.Value.Type on zero Value")
      \/ (Some embedded_nil <> None /\ (forall rv, ~ record (Some embedded_nil) rv)
          /\ nil_embedded = "invalid value; only structs are supported")
      \/ ((exists rv, record (Some embedded_nil) rv) /\ nil_embedded = nil_embedded)).
Proof.
  split.
  - apply (proj1 (fields_panics (Some nested_with_values) []) nested_with_values_out).
    vm_compute. reflexivity.
  - apply (proj2 (fields_panics (Some embedded_nil) []) nil_embedded).
    vm_compute. reflexivity.
Defined.

Lemma no_embedded_pointer_lookup fs i d ft :
  no_embedded_pointer (TStruct fs) = true -> fs !! i = Some (d, ft) ->
  no_embedded_pointer ft = true
  /\ (decl_anonymous d = true -> forall gs, ft <> TPointer (TStruct gs)).
Proof.
  simpl. revert i. induction fs as [|[d' ft'] fs IH]; intros [|i] Hall Hi;
    simplify_eq/=.
  - apply andb_prop in Hall as [[Hp Hft]%andb_prop _]. split; [done|].
    intros Han gs ->. by rewrite Han in Hp.
  - apply andb_prop in Hall as [_ Hall]. by eapply IH.
Qed.

Lemma FieldByIndex_from_total t idx d ft :
  typed_at t idx d ft -> no_embedded_pointer t = true ->
  forall first x, TypeOf x = t ->
    exists rf, FieldByIndex_from first x idx = Ok rf /\ TypeOf rf = ft
               /\ no_embedded_pointer ft = true.
Proof.
  induction 1 as [fs i d ft Hi|fs i d ft gs idx d' ft' Hi Han Hgs _ IH];
    intros Hnep first x Hx.
  - destruct (no_embedded_pointer_lookup _ _ _ _ Hnep Hi) as [Hft _].
    destruct (Field_typed _ _ _ _ _ Hx Hi) as (rf & Hrf & Hty).
    destruct (TypeOf_struct _ _ Hx) as (vs & -> & _).
    exists rf. split; [|done]. simpl in Hrf. destruct first; simpl; by rewrite Hrf.
  - destruct (no_embedded_pointer_lookup _ _ _ _ Hnep Hi) as [Hft Hnp].
    destruct (Field_typed _ _ _ _ _ Hx Hi) as (rf & Hrf & Hty).
    destruct (TypeOf_struct _ _ Hx) as (vs & -> & _).
    assert (ft = TStruct gs) as ->.
    { destruct ft as [| | | |[| | | | |hs]|]; simplify_eq/=; try done.
      by destruct (Hnp Han gs). }
    destruct (IH Hft false rf Hty) as (r & Hr & Hrt & Hrn).
    exists r. split; [|done]. simpl in Hrf. destruct first; simpl; by rewrite Hrf.
Qed.

Lemma component_total rv vFields tf :
  VisibleFields (TypeOf rv) = Ok vFields -> tf ∈ vFields ->
  no_embedded_pointer (TypeOf rv) = true ->
  exists rf, component rv tf = Ok rf /\ no_embedded_pointer (TypeOf rf) = true.
Proof.
  intros HvF Htf Hnep.
  destruct (VisibleFields_typed _ _ _ HvF Htf) as (d & Hty & _).
  destruct (TypeOf rv) as [| | | | |fs] eqn:Hrv; try done.
  destruct (TypeOf_struct _ _ Hrv) as (vs & -> & _).
  destruct (FieldByIndex_from_total _ _ _ _ Hty Hnep true _ Hrv)
    as (rf & Hrf & Hft & Hn).
  unfold component. rewrite FieldByIndex_from_first, Hrf by eauto. simpl.
  rewrite <- Hft in *. destruct rf as [| | | |e|y|]; simpl; eauto.
  eexists. split; [done|]. by rewrite TypeOf_Zero.
Qed.

Lemma record_nested_total rf :
  Value_Kind (Indirect rf) = Struct ->
  no_embedded_pointer (TypeOf rf) = true ->
  exists rv, record (Value_Interface rf) rv
             /\ no_embedded_pointer (TypeOf rv) = true.
Proof.
  destruct rf as [| | | | |[]|fs]; try done; intros _ Hn; eexists;
    (split; [by split|done]).
Qed.

Lemma fields_loop_total rec rv names vFields :
  Forall (fun tf =>
            (exists b, fields_step rec rv names tf = Ok b)
            \/ fields_step rec rv names tf = OutOfFuel) vFields ->
  forall ret,
    (exists out, fields_loop rec rv names vFields ret = Ok out)
    \/ fields_loop rec rv names vFields ret = OutOfFuel.
Proof.
  induction 1 as [|tf rest Htf _ IH]; intros ret; simpl; [eauto|].
  destruct Htf as [[b ->]| ->]; simpl; eauto.
Qed.

Lemma fields_fuel_total n : forall v names rv,
  record v rv -> no_embedded_pointer (TypeOf rv) = true ->
  (exists out, fields_fuel n v names = Ok out)
  \/ fields_fuel n v names = OutOfFuel.
Proof.
  induction n as [|n IH]; intros v names rv Hrec Hnep; [by right|].
  simpl. rewrite (fields_record _ _ _ _ Hrec).
  destruct (VisibleFields (TypeOf rv)) as [vFields| |] eqn:HvF; simpl.
  - apply fields_loop_total, Forall_forall. intros tf Htf.
    unfold fields_step. destruct (negb (IsExported tf)); [eauto|].
    destruct (component_total rv _ _ HvF Htf Hnep) as (rf & -> & Hn). simpl.
    case_decide as Hk; [|eauto]. destruct (negb (Anonymous tf)); [|eauto].
    destruct (record_nested_total _ Hk Hn) as (rv' & Hrec' & Hn').
    by eapply IH.
  - destruct (record_struct _ _ Hrec) as [vs ->]. by simpl in HvF.
  - destruct (record_struct _ _ Hrec) as [vs ->]. by simpl in HvF.
Qed.

(** X11: let the type of a record be of nesting depth less than [n], so a
    type that does not contain itself, and let it embed no pointer to a
    struct, at any depth. Then [fields] returns on the record, its
    recursion no deeper than [n]: it does not panic. *)
Theorem fields_total n v names rv :
  record v rv -> no_embedded_pointer (TypeOf rv) = true ->
  depth (TypeOf rv) < n ->
  exists out, fields_fuel n v names = Ok out /\ fields v names = Ok out.
Proof.
  intros Hrec Hnep Hn.
  destruct (fields_fuel_total n v names rv Hrec Hnep) as [[out Hout]|Hout].
  - exists out. split; [done|]. by eapply fields_fuel_Ok.
  - apply fields_fuel_enough in Hout; [done|].
    destruct Hrec as [Hv Hk]. rewrite (valueOf_fuel _ _ Hv Hk). lia.
Qed.

(** X11 on the input of the test "nested with values", of depth 2. *)
Lemma fields_total_witness :
  exists out,
    fields_fuel 3 (Some nested_with_values) [] = Ok out
    /\ fields (Some nested_with_values) [] = Ok out.
Proof.
  apply (fields_total 3 (Some nested_with_values) [] nested_with_values).
  - split; reflexivity.
  - reflexivity.
  - vm_compute. lia.
Defined.

(** X12: whether [fields] takes a component for a nested record is settled
    by the component's declared type: it does so exactly when that type is
    a struct or a pointer to a struct. A struct held in a component of
    interface type, or behind two pointers, is a leaf. *)
Theorem nested_iff_declared rv vFields tf rf :
  VisibleFields (TypeOf rv) = Ok vFields -> tf ∈ vFields ->
  component rv tf = Ok rf ->
  Value_Kind (Indirect rf) = Struct <-> is_Some (struct_of (Type_ tf)).
Proof.
  intros HvF Htf Hrf. pose proof (component_kind _ _ _ _ HvF Htf Hrf) as Hk.
  destruct (struct_of (Type_ tf)) as [gs|].
  - destruct Hk as [Hk _]. split; [by eexists|done].
  - split; [done|]. by intros [? ?].
Qed.

(** X12 on a struct held in a component of interface type. *)
Lemma nested_iff_declared_witness :
  Value_Kind (Indirect (VInterface (Some (VStruct [(exported "City" "", VString "")]))))
  = Struct
  <-> is_Some (struct_of TInterface).
Proof.
  apply (nested_iff_declared
           (VStruct [(exported "Data" "",
                      VInterface (Some (VStruct [(exported "City" "", VString "")])))])
           [field_of (exported "Data" "") TInterface [0]]
           (field_of (exported "Data" "") TInterface [0])).
  - vm_compute. reflexivity.
  - left.
  - reflexivity.
Defined.

End outcomes.

(** ** The descriptors [fields] returns *)

Section descriptors.

Implicit Types rec : reflect.any -> list string -> outcome (list field).

(** X13: every descriptor [fields v names] returns is the descriptor of a
    leaf: an exported component that is not a record, reached from [v]
    through named records, whose annotation is not the ignore marker. The
    descriptor is the default one for that component, with the names of
    [names] and of the records passed through in front, its Value the
    value of the component, changed by [applyTags] and by nothing else. *)
Theorem descriptor_of_leaf v names out d :
  fields v names = Ok out ->
  d ∈ out ->
  exists prefix tf rf tags,
    leaf_path v (prefix ++ [reflect.Name tf]) tf rf
    /\ parseTags (reflect.Get (reflect.Tag tf) "form") = (Some tags, false)
    /\ d = applyTags (default_field (names ++ prefix) tf rf) tags.
Proof.
  intros Hout. revert d. revert v names out Hout.
  apply (fields_Ok_ind (fun v names out => forall d, d ∈ out -> _)).
  intros v names rv vFields blocks [Hv Hk] HvF Hall d Hd.
  destruct (Forall2_concat_elem _ _ _ _ Hall Hd) as (tf & b & Htf & [Hb IH] & Hdb).
  unfold fields_step in Hb.
  destruct (reflect.IsExported tf) eqn:Hex; simpl in Hb;
    [|injection Hb as <-; by apply elem_of_nil in Hdb].
  destruct (component rv tf) as [rf| |] eqn:Hrf; simpl in Hb; try done.
  case_decide as Hkind.
  - destruct (reflect.Anonymous tf) eqn:Han; simpl in Hb;
      [injection Hb as <-; by apply elem_of_nil in Hdb|].
    destruct (IH rf eq_refl eq_refl Hkind eq_refl d Hdb)
      as (prefix & tf' & rf' & tags & Hpath & Htags & ->).
    exists (reflect.Name tf :: prefix), tf', rf', tags. split; [|split; [done|]].
    + simpl. by eapply leaf_path_nested.
    + by rewrite <- (assoc_L (++)).
  - injection Hb as <-.
    destruct (leaf_cases names tf rf) as [[_ Hleaf]|(m & Hm & Hleaf)];
      rewrite Hleaf in Hdb; [by apply elem_of_nil in Hdb|].
    apply list_elem_of_singleton in Hdb as ->.
    exists [], tf, rf, m. split; [|split; [done|]].
    + by eapply leaf_path_here.
    + by rewrite app_nil_r.
Qed.

(** X13 on the second descriptor of the test "nested with values". *)
Lemma descriptor_of_leaf_witness :
  exists prefix tf rf tags,
    leaf_path (Some nested_with_values) (prefix ++ [reflect.Name tf]) tf rf
    /\ parseTags (reflect.Get (reflect.Tag tf) "form") = (Some tags, false)
    /\ {| Name := "Address.Street1"; Label := "Street1"; Placeholder := "Street1";
          Type_ := "text"; ID := ""; ReadOnly := false;
          Value := Some (reflect.VString "123 Test St"); Footer := ""; Class := "" |}
       = applyTags (default_field ([] ++ prefix) tf rf) tags.
Proof.
  apply (descriptor_of_leaf (Some nested_with_values) [] nested_with_values_out).
  - vm_compute. reflexivity.
  - right. left.
Defined.

(** X14: every leaf has its descriptor in the output of [fields], unless
    its annotation is the ignore marker: if [fields v names] returns, the
    descriptor built from the component, with [names] and the names on the
    way to it in front, is in what it returns. *)
Theorem leaf_has_descriptor v path tf rf names out tags :
  leaf_path v path tf rf ->
  fields v names = Ok out ->
  parseTags (reflect.Get (reflect.Tag tf) "form") = (Some tags, false) ->
  exists prefix,
    path = prefix ++ [reflect.Name tf]
    /\ applyTags (default_field (names ++ prefix) tf rf) tags ∈ out.
Proof.
  intros Hpath. revert names out.
  induction Hpath as [v rv vFields tf rf Hv HvF Htf Hex Hrf Hkind
                     |v rv vFields tf rf path tf' rf' Hv HvF Htf Hex Hrf Hkind Han _ IH];
    intros names out Hout Htags.
  - exists []. split; [done|]. rewrite app_nil_r.
    by eapply leaf_block_emitted.
  - destruct (nested_block_emitted _ _ _ _ _ _ _ Hv HvF Htf Hex Hrf Hkind Han Hout)
      as (b & Hb & Hsub).
    destruct (IH _ _ Hb Htags) as (prefix & -> & Hin).
    exists (reflect.Name tf :: prefix). split; [done|]. apply Hsub.
    by rewrite <- (assoc_L (++)) in Hin.
Qed.

(** X14 on [Address.Street1] of the test "nested with values". *)
Lemma leaf_has_descriptor_witness :
  exists prefix,
    ["Address"; "Street1"] = prefix ++ ["Street1"]
    /\ applyTags
         (default_field ([] ++ prefix)
            (reflect.field_of (exported "Street1" "") reflect.TString [0])
            (reflect.VString "123 Test St")) ∅
       ∈ nested_with_values_out.
Proof.
  apply (leaf_has_descriptor (Some nested_with_values) ["Address"; "Street1"]
           (reflect.field_of (exported "Street1" "") reflect.TString [0])
           (reflect.VString "123 Test St") [] nested_with_values_out ∅).
  - eapply (leaf_path_nested (Some nested_with_values) nested_with_values _
              (reflect.field_of (exported "Address" "")
                 (reflect.TStruct [(exported "Street1" "", reflect.TString)]) [1])
              (reflect.VStruct [(exported "Street1" "", reflect.VString "123 Test St")])
              ["Street1"]).
    + reflexivity.
    + vm_compute. reflexivity.
    + right. left.
    + reflexivity.
    + reflexivity.
    + reflexivity.
    + reflexivity.
    + eapply (leaf_path_here _ (reflect.VStruct [(exported "Street1" "", reflect.VString "123 Test St")]) _
                (reflect.field_of (exported "Street1" "") reflect.TString [0])).
      * reflexivity.
      * vm_compute. reflexivity.
      * left.
      * reflexivity.
      * reflexivity.
      * discriminate.
  - vm_compute. reflexivity.
  - vm_compute. reflexivity.
Defined.

End descriptors.

(** ** What the extra names and the values change *)

Section names_and_values.

Implicit Types rec : reflect.any -> list string -> outcome (list field).

Lemma with_tag_same_but_Name tags key set f f' :
  (forall v g g', same_but_Name g g' -> same_but_Name (set v g) (set v g')) ->
  same_but_Name f f' ->
  same_but_Name (with_tag tags key set f) (with_tag tags key set f').
Proof. intros Hset Hf. unfold with_tag. destruct (tags !! key); auto. Qed.

Lemma applyTags_same_but_Name f f' tags :
  same_but_Name f f' -> same_but_Name (applyTags f tags) (applyTags f' tags).
Proof.
  intros H. unfold applyTags.
  repeat (apply with_tag_same_but_Name;
          [intros ??? (?&?&?&?&?&?&?&?); by repeat split|]).
  done.
Qed.

Lemma leaf_same_but_Name names names' tf rf :
  Forall2 same_but_Name (leaf names tf rf) (leaf names' tf rf).
Proof.
  unfold leaf. destruct (parseTags _) as [tags []]; constructor; [|constructor].
  apply applyTags_same_but_Name. by repeat split.
Qed.

Lemma fields_step_names rec rv names names' tf :
  (forall v n n', same_outcome (Forall2 same_but_Name) (rec v n) (rec v n')) ->
  same_outcome (Forall2 same_but_Name)
    (fields_step rec rv names tf) (fields_step rec rv names' tf).
Proof.
  intros Hrec. unfold fields_step.
  destruct (negb (reflect.IsExported tf)); [constructor|].
  destruct (component rv tf) as [rf| |]; simpl; try done.
  case_decide; [|apply leaf_same_but_Name].
  destruct (negb (reflect.Anonymous tf)); [apply Hrec|constructor].
Qed.

Lemma fields_loop_names rec rv names names' vFields :
  (forall v n n', same_outcome (Forall2 same_but_Name) (rec v n) (rec v n')) ->
  forall ret ret',
    Forall2 same_but_Name ret ret' ->
    same_outcome (Forall2 same_but_Name)
      (fields_loop rec rv names vFields ret) (fields_loop rec rv names' vFields ret').
Proof.
  intros Hrec. induction vFields as [|tf rest IH]; intros ret ret' Hret; [done|].
  simpl. pose proof (fields_step_names rec rv names names' tf Hrec) as Hstep.
  destruct (fields_step rec rv names tf) as [b| |],
    (fields_step rec rv names' tf) as [b'| |]; simpl in *; try done.
  apply IH. by apply Forall2_app.
Qed.

(** X15: the extra names given to [fields] show in the Name of the
    descriptors and nowhere else: with other names [fields] panics in the
    same way or returns as many descriptors, in the same order, each with
    the same Label, Placeholder, Type, ID, Class, ReadOnly, Footer and
    Value. *)
Theorem names_only_in_Name v names names' :
  same_outcome (Forall2 same_but_Name) (fields v names) (fields v names').
Proof.
  unfold fields. generalize (fuel_for v). intros n. revert v names names'.
  induction n as [|n IH]; intros v names names'; [done|].
  simpl. unfold fields_body.
  destruct (valueOf v) as [[rv|]| |]; simpl; try done.
  destruct rv as [| | | | | |vs]; try done.
  destruct (reflect.VisibleFields _) as [vFields| |]; simpl; try done.
  apply fields_loop_names; [exact IH|constructor].
Qed.

(** X16: the values of a record show in the Value of the descriptors and
    nowhere else: for two records of one type, if [fields] returns for
    both, it returns as many descriptors, in the same order, each with the
    same Name, Label, Placeholder, Type, ID, Class, ReadOnly and Footer. *)
Theorem values_only_in_Value v v' rv rv' names out out' :
  record v rv -> record v' rv' ->
  reflect.TypeOf rv = reflect.TypeOf rv' ->
  fields v names = Ok out -> fields v' names = Ok out' ->
  Forall2 same_but_Value out out'.
Proof. intros Hrec Hrec' Hty Hout Hout'. by eapply fields_same_type. Qed.

(** X16 on the input of the test "nested with values" and the zero value
    of its type. *)
Lemma values_only_in_Value_witness :
  Forall2 same_but_Value nested_with_values_out
    [text_field "Name" (Some (reflect.VString ""));
     {| Name := "Address.Street1"; Label := "Street1"; Placeholder := "Street1";
        Type_ := "text"; ID := ""; ReadOnly := false;
        Value := Some (reflect.VString ""); Footer := ""; Class := "" |}].
Proof.
  apply (values_only_in_Value (Some nested_with_values)
           (Some (reflect.VNil (reflect.TypeOf nested_with_values)))
           nested_with_values
           (reflect.Zero (reflect.TypeOf nested_with_values)) []).
  - split; reflexivity.
  - split; reflexivity.
  - reflexivity.
  - vm_compute. reflexivity.
  - vm_compute. reflexivity.
Defined.

End names_and_values.

(** ** The nil pointer as a handle *)

Section nil_handle.
Import reflect.

(** X17: let a struct type be of nesting depth less than [n], so a type
    that does not contain itself, and let it embed no pointer to a struct,
    at any depth. Then [fields] of the nil pointer of that type returns, its
    recursion no deeper than [n], and what it returns differs from what
    [fields] returns for any record of the type in the Value of the
    descriptors alone. *)
Theorem fields_nil_handle n fs names v rv :
  no_embedded_pointer (TStruct fs) = true ->
  depth (TStruct fs) < n ->
  record v rv -> TypeOf rv = TStruct fs ->
  exists out0 out,
    fields_fuel n (Some (VNil (TStruct fs))) names = Ok out0
    /\ fields_fuel n v names = Ok out
    /\ Forall2 same_but_Value out0 out.
Proof.
  intros Hnep Hn Hrec Hty.
  assert (record (Some (VNil (TStruct fs))) (Zero (TStruct fs))) as Hrec0
    by (by split).
  assert (TypeOf (Zero (TStruct fs)) = TStruct fs) as Hty0 by apply TypeOf_Zero.
  destruct (fields_fuel_total n _ names _ Hrec0) as [[out0 Hout0]|Hout0];
    [by rewrite Hty0|..].
  2: { apply fields_fuel_enough in Hout0; [done|].
       destruct Hrec0 as [Hv0 Hk0]. rewrite (valueOf_fuel _ _ Hv0 Hk0), Hty0. lia. }
  destruct (fields_fuel_total n v names rv Hrec) as [[out Hout]|Hout];
    [by rewrite Hty|..].
  2: { apply fields_fuel_enough in Hout; [done|].
       destruct Hrec as [Hv Hk]. rewrite (valueOf_fuel _ _ Hv Hk), Hty. lia. }
  exists out0, out. split; [done|]. split; [done|].
  eapply fields_same_type;
    [by eapply fields_fuel_Ok|exact Hrec0|exact Hrec|congruence
    |by eapply fields_fuel_Ok].
Qed.

(** X17 on the type of the input of the test "nested with values", of
    depth 2. *)
Lemma fields_nil_handle_witness :
  exists out0 out,
    fields_fuel 3 (Some (VNil (TypeOf nested_with_values))) [] = Ok out0
    /\ fields_fuel 3 (Some nested_with_values) [] = Ok out
    /\ Forall2 same_but_Value out0 out.
Proof.
  apply (fields_nil_handle 3 _ [] (Some nested_with_values) nested_with_values).
  - reflexivity.
  - vm_compute. lia.
  - split; reflexivity.
  - reflexivity.
Defined.

End nil_handle.
